(** * The link reconciler of talemu: wireguard diff codec and per-link sync

    A shallow embedding of [internal/pkg/machine/controllers/link_spec.go]:
    the wireguard codec ([wireguardSpec.Encode], [wireguardSpec.Decode]),
    the per-item sync ([LinkSpecController.syncLink], [FindLink]) and one
    cycle of [LinkSpecController.Run].

    Go values are rendered as follows: integers as [Z], strings as [string]
    (compared bytewise, as Go does), a pointer that may be nil as [option],
    a [(value, error)] result as [error + value] when the value is dropped
    on error, and as a pair when the source keeps it.  Calls that leave the
    process (netlink socket, wireguard client, resource store) are events of
    a small free monad; a run records every call with its answer. *)

From Stdlib Require Import String Ascii List ZArith Bool Lia Arith.
From Stdlib Require Import Sorting.Sorted Structures.OrderedTypeEx.
From Stdlib Require Strings.Byte.
From Equations Require Import Equations.
From ExtLib Require Import Structures.Monad Data.Monads.EitherMonad.
Import ListNotations.
Import MonadNotation.
Local Open Scope string_scope.
Local Open Scope Z_scope.
Local Open Scope list_scope.
Local Open Scope monad_scope.

Set Implicit Arguments.

(** ** Errors *)

(** Go [error] values: a message ([errors.New], or whatever a collaborator
    reports), a [fmt.Errorf] with its format string, its printed arguments
    and the error it wraps through [%w], if any, and the aggregate of
    [go-multierror]. *)
#[warnings="-register-all"]
Inductive error : Type :=
| errorString (msg : string)
| errorf (format : string) (args : list string) (wrapped : option error)
| multiError (errs : list error).

(** ** Data of the standard library and of wgtypes *)

Module netip.
Record Addr := mkAddr { As16 : list Byte.byte; Is4 : bool; Zone : string }.
Record Prefix := mkPrefix { PrefixAddr : Addr; Bits : Z }.
End netip.

Module net.
Record IPNet := mkIPNet { IP : list Byte.byte; Mask : list Byte.byte }.
Record UDPAddr := mkUDPAddr { AddrIP : list Byte.byte; Port : Z; AddrZone : string }.
End net.

(** [wgtypes.Key] is [[32]byte]; arrays compare elementwise. *)
Definition Key : Type := list Byte.byte.
Definition KeyLen : nat := 32.
Definition zeroKey : Key := repeat Byte.x00 KeyLen.
Definition Key_eqb (a b : Key) : bool :=
  if list_eq_dec Byte.byte_eq_dec a b then true else false.

(** [wgtypes.PeerConfig] *)
Module PeerConfig.
Record t := mk {
  PublicKey : Key;
  Remove : bool;
  UpdateOnly : bool;
  PresharedKey : option Key;
  Endpoint : option net.UDPAddr;
  PersistentKeepaliveInterval : option Z;
  ReplaceAllowedIPs : bool;
  AllowedIPs : list net.IPNet
}.
End PeerConfig.

(** [wgtypes.Config] *)
Module Config.
Record t := mk {
  PrivateKey : option Key;
  ListenPort : option Z;
  FirewallMark : option Z;
  ReplacePeers : bool;
  Peers : list PeerConfig.t
}.
End Config.

(** [wgtypes.Peer], the fields the decoder reads. *)
Module Peer.
Record t := mk {
  PublicKey : Key;
  PresharedKey : Key;
  Endpoint : option net.UDPAddr;
  PersistentKeepaliveInterval : Z;
  AllowedIPs : list net.IPNet
}.
End Peer.

(** [wgtypes.Device], the fields the decoder reads. *)
Module Device.
Record t := mk {
  PrivateKey : Key;
  PublicKey : Key;
  ListenPort : Z;
  FirewallMark : Z;
  Peers : list Peer.t
}.
End Device.

(** ** Declared resources *)

(** [network.WireguardPeer] *)
Module WireguardPeer.
Record t := mk {
  PublicKey : string;
  PresharedKey : string;
  Endpoint : string;
  PersistentKeepaliveInterval : Z;
  AllowedIPs : list netip.Prefix
}.
(** The zero value, as [make([]network.WireguardPeer, n)] fills a slice. *)
Definition zero : t := mk "" "" "" 0 [].
End WireguardPeer.

(** [network.WireguardSpec] *)
Module WireguardSpec.
Record t := mk {
  PrivateKey : string;
  PublicKey : string;
  ListenPort : Z;
  FirewallMark : Z;
  Peers : list WireguardPeer.t
}.
Definition zero : t := mk "" "" 0 0 [].
End WireguardSpec.

(** ** Library functions the codec calls

    Their code is outside the repository; the codec is verified for any
    implementation of them. *)
Class Externals : Type := {
  (** [wgtypes.ParseKey] *)
  ParseKey : string -> error + Key;
  (** [wgtypes.Key.String] *)
  KeyString : Key -> string;
  (** [net.ResolveUDPAddr("", s)] *)
  ResolveUDPAddr : string -> error + net.UDPAddr;
  (** [net.UDPAddr.String] *)
  UDPAddrString : net.UDPAddr -> string;
  (** [*netipx.PrefixIPNet(p)] *)
  PrefixIPNet : netip.Prefix -> net.IPNet;
  (** first result of [netipx.FromStdIPNet(&n)] *)
  FromStdIPNet : net.IPNet -> netip.Prefix;
  (** [network.WireguardSpec.Sort], on the peer list it reorders *)
  SortPeers : list WireguardPeer.t -> list WireguardPeer.t
}.

(** Decidable equality on the declared peer data. *)
Definition Addr_eq_dec (a b : netip.Addr) : {a = b} + {a <> b}.
Proof.
  decide equality.
  - apply string_dec.
  - apply bool_dec.
  - apply (list_eq_dec Byte.byte_eq_dec).
Defined.

Definition Prefix_eq_dec (a b : netip.Prefix) : {a = b} + {a <> b}.
Proof.
  decide equality.
  - apply Z.eq_dec.
  - apply Addr_eq_dec.
Defined.

Definition WireguardPeer_eq_dec (a b : WireguardPeer.t) : {a = b} + {a <> b}.
Proof.
  decide equality.
  - apply (list_eq_dec Prefix_eq_dec).
  - apply Z.eq_dec.
  - apply string_dec.
  - apply string_dec.
  - apply string_dec.
Defined.

(** Modelled from the spec: [network.WireguardPeer.Equal], a method of the
    resource type that is not part of this repository's sources; the spec
    has it "compare full peer content". *)
Definition peerEqual (peer other : WireguardPeer.t) : bool :=
  if WireguardPeer_eq_dec peer other then true else false.

(** Modelled from the spec: [network.WireguardSpec.Equal], likewise outside
    the sources; equal specs agree on the key, the port, the mark and,
    position by position, on the peers. *)
Definition specEqual (spec other : WireguardSpec.t) : bool :=
  String.eqb (WireguardSpec.PrivateKey spec) (WireguardSpec.PrivateKey other)
  && Z.eqb (WireguardSpec.ListenPort spec) (WireguardSpec.ListenPort other)
  && Z.eqb (WireguardSpec.FirewallMark spec) (WireguardSpec.FirewallMark other)
  && Nat.eqb (length (WireguardSpec.Peers spec)) (length (WireguardSpec.Peers other))
  && forallb (fun pq => peerEqual (fst pq) (snd pq))
       (combine (WireguardSpec.Peers spec) (WireguardSpec.Peers other)).

(** ** The wireguard diff codec *)

Section Codec.
Context {ext : Externals}.

(** The closure [addPeer] of [Encode]: the entry that adds or replaces
    [peer]. *)
Definition addPeer (peer : WireguardPeer.t) : error + PeerConfig.t :=
  pubKey <- ParseKey (WireguardPeer.PublicKey peer) ;;
  presharedKey <-
    (if String.eqb (WireguardPeer.PresharedKey peer) ""
     then inr None
     else parsedKey <- ParseKey (WireguardPeer.PresharedKey peer) ;;
          inr (Some parsedKey)) ;;
  endpoint <-
    (if String.eqb (WireguardPeer.Endpoint peer) ""
     then inr None
     else a <- ResolveUDPAddr (WireguardPeer.Endpoint peer) ;;
          inr (Some a)) ;;
  inr {| PeerConfig.PublicKey := pubKey;
         PeerConfig.Remove := false;
         PeerConfig.UpdateOnly := false;
         PeerConfig.PresharedKey := presharedKey;
         PeerConfig.Endpoint := endpoint;
         PeerConfig.PersistentKeepaliveInterval :=
           Some (WireguardPeer.PersistentKeepaliveInterval peer);
         PeerConfig.ReplaceAllowedIPs := true;
         PeerConfig.AllowedIPs := map PrefixIPNet (WireguardPeer.AllowedIPs peer) |}.

(** The closure [deletePeer] of [Encode]: the entry that removes [peer]. *)
Definition deletePeer (peer : WireguardPeer.t) : error + PeerConfig.t :=
  pubKey <- ParseKey (WireguardPeer.PublicKey peer) ;;
  inr {| PeerConfig.PublicKey := pubKey;
         PeerConfig.Remove := true;
         PeerConfig.UpdateOnly := false;
         PeerConfig.PresharedKey := None;
         PeerConfig.Endpoint := None;
         PeerConfig.PersistentKeepaliveInterval := None;
         PeerConfig.ReplaceAllowedIPs := false;
         PeerConfig.AllowedIPs := [] |}.

(** The merge loop of [Encode].  [existing] and [spec] are what the two
    cursors [l] and [r] have not passed yet, [peers] is [cfg.Peers] so
    far.  The three cases of the switch are the three outcomes of
    comparing the two public keys. *)
Equations? mergePeers (existing spec : list WireguardPeer.t)
    (peers : list PeerConfig.t) : error + list PeerConfig.t
    by wf (length existing + length spec)%nat lt :=
  mergePeers [] [] peers := inr peers;
  mergePeers [] (rightPeer :: spec') peers with addPeer rightPeer => {
    | inl err := inl err;
    | inr c := mergePeers [] spec' (peers ++ [c]) };
  mergePeers (leftPeer :: existing') [] peers with deletePeer leftPeer => {
    | inl err := inl err;
    | inr c := mergePeers existing' [] (peers ++ [c]) };
  mergePeers (leftPeer :: existing') (rightPeer :: spec') peers
    with String.compare (WireguardPeer.PublicKey leftPeer) (WireguardPeer.PublicKey rightPeer) => {
    | Gt with addPeer rightPeer => {
        | inl err := inl err;
        | inr c := mergePeers (leftPeer :: existing') spec' (peers ++ [c]) };
    | Lt with deletePeer leftPeer => {
        | inl err := inl err;
        | inr c := mergePeers existing' (rightPeer :: spec') (peers ++ [c]) };
    | Eq with peerEqual leftPeer rightPeer => {
        | true := mergePeers existing' spec' peers;
        | false with addPeer rightPeer => {
            | inl err := inl err;
            | inr c := mergePeers existing' spec' (peers ++ [c]) } } }.
Proof. all: simpl; lia. Qed.

(** [wireguardSpec.Encode]: the patch that turns [existing] into [spec]. *)
Definition Encode (spec existing : WireguardSpec.t) : error + Config.t :=
  privateKey <-
    (if negb (String.eqb (WireguardSpec.PrivateKey existing) (WireguardSpec.PrivateKey spec))
     then key <- ParseKey (WireguardSpec.PrivateKey spec) ;; inr (Some key)
     else inr None) ;;
  let listenPort :=
    if negb (Z.eqb (WireguardSpec.ListenPort existing) (WireguardSpec.ListenPort spec))
    then Some (WireguardSpec.ListenPort spec) else None in
  let firewallMark :=
    if negb (Z.eqb (WireguardSpec.FirewallMark existing) (WireguardSpec.FirewallMark spec))
    then Some (WireguardSpec.FirewallMark spec) else None in
  peers <- mergePeers (WireguardSpec.Peers existing) (WireguardSpec.Peers spec) [] ;;
  inr {| Config.PrivateKey := privateKey;
         Config.ListenPort := listenPort;
         Config.FirewallMark := firewallMark;
         Config.ReplacePeers := false;
         Config.Peers := peers |}.

(** One iteration of the loop of [Decode], on a zero-valued peer. *)
Definition decodePeer (p : Peer.t) : WireguardPeer.t :=
  {| WireguardPeer.PublicKey := KeyString (Peer.PublicKey p);
     WireguardPeer.PresharedKey :=
       if negb (Key_eqb (Peer.PresharedKey p) zeroKey)
       then KeyString (Peer.PresharedKey p)
       else WireguardPeer.PresharedKey WireguardPeer.zero;
     WireguardPeer.Endpoint :=
       match Peer.Endpoint p with
       | Some a => UDPAddrString a
       | None => WireguardPeer.Endpoint WireguardPeer.zero
       end;
     WireguardPeer.PersistentKeepaliveInterval := Peer.PersistentKeepaliveInterval p;
     WireguardPeer.AllowedIPs := map FromStdIPNet (Peer.AllowedIPs p) |}.

(** [wireguardSpec.Decode]: overwrites [spec] from the device state; the
    key field that [isStatus] does not select keeps its old value. *)
Definition Decode (spec : WireguardSpec.t) (dev : Device.t) (isStatus : bool)
  : WireguardSpec.t :=
  {| WireguardSpec.PublicKey :=
       if isStatus then KeyString (Device.PublicKey dev)
       else WireguardSpec.PublicKey spec;
     WireguardSpec.PrivateKey :=
       if isStatus then WireguardSpec.PrivateKey spec
       else KeyString (Device.PrivateKey dev);
     WireguardSpec.ListenPort := Device.ListenPort dev;
     WireguardSpec.FirewallMark := Device.FirewallMark dev;
     WireguardSpec.Peers := map decodePeer (Device.Peers dev) |}.

End Codec.

(** ** Kernel links *)

(** [rtnetlink.LinkInfo] *)
Module LinkInfo.
Record t := mk { Kind : string; Data : list Byte.byte }.
End LinkInfo.

(** [rtnetlink.LinkAttributes], the fields the controller reads or sets;
    [Type_] is the attribute the source calls [Type]. *)
Module LinkAttributes.
Record t := mk {
  Name : string;
  MTU : Z;
  Type_ : Z;
  Info : option LinkInfo.t
}.
End LinkAttributes.

(** [rtnetlink.LinkMessage] as the controller builds it for a request:
    [Attributes] is a pointer, nil in a flags-only request. *)
Module LinkMessage.
Record t := mk {
  Family : Z;
  Type_ : Z;
  Index : Z;
  Flags : Z;
  Change : Z;
  Attributes : option LinkAttributes.t
}.
End LinkMessage.

(** [rtnetlink.LinkMessage] as [conn.Link.List] returns it (the spec's
    KernelLink).  The source reads [Attributes] of every listed message
    without a nil check, so a listed message carries its attributes;
    [Info] stays a pointer the source does check. *)
Module KernelLink.
Record t := mk {
  Family : Z;
  Type_ : Z;
  Index : Z;
  Flags : Z;
  Change : Z;
  Attributes : LinkAttributes.t
}.
End KernelLink.

(** [unix.IFF_UP] *)
Definition IFF_UP : Z := 0x1.

(** [network.LinkKindWireguard] *)
Definition LinkKindWireguard : string := "wireguard".

(** [resource.Phase] *)
Inductive Phase : Type := PhaseRunning | PhaseTearingDown.

(** [resource.Metadata], the part the controller uses. *)
Module Metadata.
Record t := mk { ID : string; Phase_ : Phase }.
End Metadata.

(** [network.LinkSpecSpec], the fields the controller reads. *)
Module LinkSpecSpec.
Record t := mk {
  Name : string;
  Logical : bool;
  Up : bool;
  MTU : Z;
  Kind : string;
  Type_ : Z;
  Wireguard : WireguardSpec.t
}.
End LinkSpecSpec.

(** [network.LinkSpec] *)
Module LinkSpec.
Record t := mk { Metadata_ : Metadata.t; TypedSpec : LinkSpecSpec.t }.
End LinkSpec.

(** [FindLink]: the first listed link named [name], as its position in the
    slice (the source returns the address of that element) with the
    element itself. *)
Fixpoint FindLink (links : list KernelLink.t) (name : string)
  : option (nat * KernelLink.t) :=
  match links with
  | [] => None
  | link :: rest =>
      if String.eqb (LinkAttributes.Name (KernelLink.Attributes link)) name
      then Some (O, link)
      else match FindLink rest name with
           | Some (i, found) => Some (S i, found)
           | None => None
           end
  end.

(** ** Calls to the collaborators *)

(** One constructor per call the controller makes on the netlink socket
    ([conn.Link]), the wireguard client and the controller runtime, indexed
    by the type of the answer.  [conn.Link.List] answers with a pair: the
    source stores the listed slice before it looks at the error.  Log
    lines are not modelled. *)
Inductive Event : Type -> Type :=
| StoreList : Event (error + list LinkSpec.t)
| AddFinalizer (md : Metadata.t) (fin : string) : Event (option error)
| RemoveFinalizer (md : Metadata.t) (fin : string) : Event (option error)
| LinkList : Event (list KernelLink.t * option error)
| LinkNew (req : LinkMessage.t) : Event (option error)
| LinkDelete (index : Z) : Event (option error)
| LinkSet (req : LinkMessage.t) : Event (option error)
| WgDevice (name : string) : Event (error + Device.t)
| WgConfigureDevice (name : string) (cfg : Config.t) : Event (option error)
| LinkRefreshBump (kind : string) : Event (option error)
| ResetRestartBackoff : Event unit.

(** A program: it returns, or makes a call and goes on with the answer. *)
Inductive Prog (A : Type) : Type :=
| Ret (a : A)
| Vis (X : Type) (e : Event X) (k : X -> Prog A).
Arguments Ret {A} a.
Arguments Vis {A X} e k.

Fixpoint bindProg {A B : Type} (p : Prog A) (f : A -> Prog B) : Prog B :=
  match p with
  | Ret a => f a
  | Vis e k => Vis e (fun x => bindProg (k x) f)
  end.

#[global] Instance Monad_Prog : Monad Prog :=
  {| ret := @Ret; bind := @bindProg |}.

Definition trigger {X : Type} (e : Event X) : Prog X := Vis e Ret.

(** A call together with the answer it got. *)
Inductive Call : Type :=
| call (X : Type) (e : Event X) (answer : X).
Arguments call {X} e answer.

(** [exec p t a]: [p] can make exactly the calls of [t], with these
    answers and in this order, and then return [a]. *)
Fixpoint exec {A : Type} (p : Prog A) (t : list Call) (a : A) : Prop :=
  match p with
  | Ret a' => t = [] /\ a = a'
  | Vis e k => exists x t', t = call e x :: t' /\ exec (k x) t' a
  end.

(** The collaborators as a deterministic machine over a state [W]. *)
Definition Handler (W : Type) : Type := forall X : Type, Event X -> W -> X * W.

(** Runs [p] against the machine: result, final state and the calls made. *)
Fixpoint run {A W : Type} (h : Handler W) (p : Prog A) (w : W)
  : A * W * list Call :=
  match p with
  | Ret a => (a, w, [])
  | Vis e k =>
      let '(x, w1) := h _ e w in
      let '(a, w2, t) := run h (k x) w1 in
      (a, w2, call e x :: t)
  end.

(** ** The per-item sync *)

(** [ctrl.Name()] *)
Definition ctrlName : string := "network.LinkSpecController".

(** What a [return] of [syncLink] leaves behind: the snapshot [*links]
    and the error. *)
Definition Returned : Type := list KernelLink.t * option error.

(** A stretch of [syncLink]: it returns from the function ([inl]) or falls
    through to the next statement with a value ([inr]). *)
Definition andThen {A B : Type} (p : Prog (Returned + A))
    (f : A -> Prog (Returned + B)) : Prog (Returned + B) :=
  r <- p ;;
  match r with
  | inl out => ret (inl out)
  | inr a => f a
  end.

(** The pointer [existing]: where the link sits in [*links], and the link. *)
Definition Existing : Type := nat * KernelLink.t.

(** [existing.Attributes.MTU = mtu] through the pointer into [*links]. *)
Fixpoint setMTU (links : list KernelLink.t) (i : nat) (mtu : Z) : list KernelLink.t :=
  match links, i with
  | [], _ => []
  | link :: rest, O =>
      let a := KernelLink.Attributes link in
      KernelLink.mk (KernelLink.Family link) (KernelLink.Type_ link)
        (KernelLink.Index link) (KernelLink.Flags link) (KernelLink.Change link)
        (LinkAttributes.mk (LinkAttributes.Name a) mtu (LinkAttributes.Type_ a)
           (LinkAttributes.Info a))
      :: rest
  | link :: rest, S i' => link :: setMTU rest i' mtu
  end.

(** The kernel type or kind of [existing] is not what the spec wants
    (line 220). *)
Definition mismatched (existing : KernelLink.t) (info : LinkInfo.t)
    (spec : LinkSpecSpec.t) : bool :=
  negb (Z.eqb (KernelLink.Type_ existing) (LinkSpecSpec.Type_ spec))
  || negb (String.eqb (LinkInfo.Kind info) (LinkSpecSpec.Kind spec)).

(** The condition of line 353 on the resolved link. *)
Definition mtuDiffers (existing : KernelLink.t) (spec : LinkSpecSpec.t) : bool :=
  negb (Z.eqb (LinkSpecSpec.MTU spec) 0)
  && negb (Z.eqb (LinkAttributes.MTU (KernelLink.Attributes existing))
             (LinkSpecSpec.MTU spec)).

Section Sync.
Context {ext : Externals}.

(** [wgClient] is nil when [wgctrl.New] failed at start-up. *)
Variable wgClient : option unit.

(** Lines 198-201 and the final [return nil]. *)
Definition removeFinalizer (links : list KernelLink.t) (link : LinkSpec.t)
  : Prog Returned :=
  err <- trigger (RemoveFinalizer (LinkSpec.Metadata_ link) ctrlName) ;;
  match err with
  | Some err => ret (links, Some (errorf "error removing finalizer: %w" [] (Some err)))
  | None => ret (links, None)
  end.

(** [case resource.PhaseTearingDown], lines 176-201. *)
Definition tearDown (links : list KernelLink.t) (link : LinkSpec.t) : Prog Returned :=
  let spec := LinkSpec.TypedSpec link in
  if LinkSpecSpec.Logical spec then
    match FindLink links (LinkSpecSpec.Name spec) with
    | Some (_, existing) =>
        err <- trigger (LinkDelete (KernelLink.Index existing)) ;;
        match err with
        | Some err =>
            ret (links, Some (errorf "error deleting link %q: %w"
                                [LinkSpecSpec.Name spec] (Some err)))
        | None =>
            '(links', err) <- trigger LinkList ;;
            match err with
            | Some err =>
                ret (links', Some (errorf "error listing links: %w" [] (Some err)))
            | None => removeFinalizer links' link
            end
        end
    | None => removeFinalizer links link
    end
  else removeFinalizer links link.

(** Lines 203-240: look the link up; a logical link whose kernel type or
    kind differs from the spec is deleted and [existing] set to nil. *)
Definition replaceMismatched (links : list KernelLink.t) (link : LinkSpec.t)
  : Prog (Returned + option Existing) :=
  let spec := LinkSpec.TypedSpec link in
  match FindLink links (LinkSpecSpec.Name spec) with
  | Some (i, existing) =>
      if LinkSpecSpec.Logical spec then
        match LinkAttributes.Info (KernelLink.Attributes existing) with
        | None => ret (inl (links, None))
        | Some info =>
            let replace := mismatched existing info spec in
            if replace then
              err <- trigger (LinkDelete (KernelLink.Index existing)) ;;
              match err with
              | Some err =>
                  ret (inl (links, Some (errorf "error deleting link %q: %w"
                                           [LinkSpecSpec.Name spec] (Some err))))
              | None => ret (inr None)
              end
            else ret (inr (Some (i, existing)))
        end
      else ret (inr (Some (i, existing)))
  | None => ret (inr None)
  end.

(** The message of lines 260-270. *)
Definition newLinkMessage (spec : LinkSpecSpec.t) : LinkMessage.t :=
  {| LinkMessage.Family := 0;
     LinkMessage.Type_ := LinkSpecSpec.Type_ spec;
     LinkMessage.Index := 0;
     LinkMessage.Flags := 0;
     LinkMessage.Change := 0;
     LinkMessage.Attributes :=
       Some {| LinkAttributes.Name := LinkSpecSpec.Name spec;
               LinkAttributes.MTU := 0;
               LinkAttributes.Type_ := 0;
               LinkAttributes.Info :=
                 Some {| LinkInfo.Kind := LinkSpecSpec.Kind spec;
                         LinkInfo.Data := [] |} |} |}.

(** Lines 242-286: with no kernel link, a physical spec and a logical
    spec of another kind than wireguard end the sync; a wireguard link
    is created, the snapshot listed again and the link looked up in it. *)
Definition createMissing (links : list KernelLink.t) (link : LinkSpec.t)
    (existing : option Existing) : Prog (Returned + (list KernelLink.t * Existing)) :=
  let spec := LinkSpec.TypedSpec link in
  match existing with
  | Some found => ret (inr (links, found))
  | None =>
      if negb (LinkSpecSpec.Logical spec) then ret (inl (links, None))
      else if negb (String.eqb (LinkSpecSpec.Kind spec) LinkKindWireguard)
      then ret (inl (links, None))
      else
        err <- trigger (LinkNew (newLinkMessage spec)) ;;
        match err with
        | Some err =>
            ret (inl (links, Some (errorf "error creating logical link %q: %w"
                                     [LinkSpecSpec.Name spec] (Some err))))
        | None =>
            '(links', err) <- trigger LinkList ;;
            match err with
            | Some err =>
                ret (inl (links', Some (errorf "error listing links: %w" [] (Some err))))
            | None =>
                match FindLink links' (LinkSpecSpec.Name spec) with
                | None =>
                    ret (inl (links', Some (errorf "created link %q not found in the link list"
                                              [LinkSpecSpec.Name spec] None)))
                | Some found => ret (inr (links', found))
                end
            end
        end
  end.

(** Lines 288-328: the wireguard settings.  [Some err] is the error the
    sync returns with, [None] lets it go on.  Both peer lists are sorted
    before they are compared and diffed; the source sorts the declared
    list in place, which nothing after this step reads. *)
Definition syncWireguard (link : LinkSpec.t) : Prog (option error) :=
  let spec := LinkSpec.TypedSpec link in
  if String.eqb (LinkSpecSpec.Kind spec) LinkKindWireguard then
    match wgClient with
    | None =>
        ret (Some (errorf "wireguard client not available, cannot configure wireguard link %q"
                     [LinkSpecSpec.Name spec] None))
    | Some _ =>
        dev <- trigger (WgDevice (LinkSpecSpec.Name spec)) ;;
        match dev with
        | inl err =>
            ret (Some (errorf "error getting wireguard settings for %q: %w"
                         [LinkSpecSpec.Name spec] (Some err)))
        | inr wgDev =>
            let decoded := Decode WireguardSpec.zero wgDev false in
            let existingSpec :=
              WireguardSpec.mk (WireguardSpec.PrivateKey decoded)
                (WireguardSpec.PublicKey decoded) (WireguardSpec.ListenPort decoded)
                (WireguardSpec.FirewallMark decoded)
                (SortPeers (WireguardSpec.Peers decoded)) in
            let wanted := LinkSpecSpec.Wireguard spec in
            let desired :=
              WireguardSpec.mk (WireguardSpec.PrivateKey wanted)
                (WireguardSpec.PublicKey wanted) (WireguardSpec.ListenPort wanted)
                (WireguardSpec.FirewallMark wanted)
                (SortPeers (WireguardSpec.Peers wanted)) in
            if negb (specEqual existingSpec desired) then
              match Encode desired existingSpec with
              | inl err =>
                  ret (Some (errorf "error creating wireguard config patch for %q: %w"
                               [LinkSpecSpec.Name spec] (Some err)))
              | inr config =>
                  err <- trigger (WgConfigureDevice (LinkSpecSpec.Name spec) config) ;;
                  match err with
                  | Some err =>
                      ret (Some (errorf "error configuring wireguard device %q: %w"
                                   [LinkSpecSpec.Name spec] (Some err)))
                  | None =>
                      err <- trigger (LinkRefreshBump LinkKindWireguard) ;;
                      match err with
                      | Some _ => ret (Some (errorString "error bumping link refresh"))
                      | None => ret None
                      end
                  end
              end
            else ret None
        end
    end
  else ret None.

(** The request of lines 339-345. *)
Definition flagsMessage (existing : KernelLink.t) (up : bool) : LinkMessage.t :=
  {| LinkMessage.Family := KernelLink.Family existing;
     LinkMessage.Type_ := KernelLink.Type_ existing;
     LinkMessage.Index := KernelLink.Index existing;
     LinkMessage.Flags := if up then IFF_UP else 0;
     LinkMessage.Change := IFF_UP;
     LinkMessage.Attributes := None |}.

(** Lines 330-350: the UP flag. *)
Definition syncUp (link : LinkSpec.t) (existing : KernelLink.t) : Prog (option error) :=
  let spec := LinkSpec.TypedSpec link in
  let existingUp := Z.eqb (Z.land (KernelLink.Flags existing) IFF_UP) IFF_UP in
  if negb (Bool.eqb existingUp (LinkSpecSpec.Up spec)) then
    err <- trigger (LinkSet (flagsMessage existing (LinkSpecSpec.Up spec))) ;;
    match err with
    | Some err =>
        ret (Some (errorf "error changing flags for %q: %w"
                     [LinkSpecSpec.Name spec] (Some err)))
    | None => ret None
    end
  else ret None.

(** The request of lines 354-360. *)
Definition mtuMessage (existing : KernelLink.t) (mtu : Z) : LinkMessage.t :=
  {| LinkMessage.Family := KernelLink.Family existing;
     LinkMessage.Type_ := KernelLink.Type_ existing;
     LinkMessage.Index := KernelLink.Index existing;
     LinkMessage.Flags := 0;
     LinkMessage.Change := 0;
     LinkMessage.Attributes :=
       Some {| LinkAttributes.Name := "";
               LinkAttributes.MTU := mtu;
               LinkAttributes.Type_ := 0;
               LinkAttributes.Info := None |} |}.

(** Lines 352-371: the MTU, and the final [return nil]. *)
Definition syncMTU (links : list KernelLink.t) (link : LinkSpec.t)
    (found : Existing) : Prog Returned :=
  let spec := LinkSpec.TypedSpec link in
  let '(i, existing) := found in
  if mtuDiffers existing spec then
    err <- trigger (LinkSet (mtuMessage existing (LinkSpecSpec.MTU spec))) ;;
    match err with
    | Some err =>
        ret (links, Some (errorf "error setting MTU for %q: %w"
                            [LinkSpecSpec.Name spec] (Some err)))
    | None => ret (setMTU links i (LinkSpecSpec.MTU spec), None)
    end
  else ret (links, None).

(** Lines 288-371, once the link is resolved. *)
Definition syncSettings (links : list KernelLink.t) (link : LinkSpec.t)
    (found : Existing) : Prog Returned :=
  err <- syncWireguard link ;;
  match err with
  | Some err => ret (links, Some err)
  | None =>
      err <- syncUp link (snd found) ;;
      match err with
      | Some err => ret (links, Some err)
      | None => syncMTU links link found
      end
  end.

(** [case resource.PhaseRunning], lines 202-371. *)
Definition running (links : list KernelLink.t) (link : LinkSpec.t) : Prog Returned :=
  r <- andThen (replaceMismatched links link) (createMissing links link) ;;
  match r with
  | inl out => ret out
  | inr (links', found) => syncSettings links' link found
  end.

(** [LinkSpecController.syncLink]: the snapshot comes in as [links] and
    goes out as the first component of the result. *)
Definition syncLink (links : list KernelLink.t) (link : LinkSpec.t) : Prog Returned :=
  match Metadata.Phase_ (LinkSpec.Metadata_ link) with
  | PhaseTearingDown => tearDown links link
  | PhaseRunning => running links link
  end.

(** ** One cycle of [Run] *)

(** Lines 98-107: a finalizer on every running item. *)
Fixpoint addFinalizers (items : list LinkSpec.t) : Prog (option error) :=
  match items with
  | [] => ret None
  | res :: rest =>
      match Metadata.Phase_ (LinkSpec.Metadata_ res) with
      | PhaseRunning =>
          err <- trigger (AddFinalizer (LinkSpec.Metadata_ res) ctrlName) ;;
          match err with
          | Some err => ret (Some (errorf "error adding finalizer: %w" [] (Some err)))
          | None => addFinalizers rest
          end
      | PhaseTearingDown => addFinalizers rest
      end
  end.

(** Lines 115-124: every item is synced in list order against the
    snapshot the previous one left; [multiErr] collects the errors. *)
Fixpoint syncItems (items : list LinkSpec.t) (links : list KernelLink.t)
    (multiErr : list error) : Prog (list KernelLink.t * list error) :=
  match items with
  | [] => ret (links, multiErr)
  | link :: rest =>
      '(links', err) <- syncLink links link ;;
      match err with
      | Some err => syncItems rest links' (multiErr ++ [err])
      | None => syncItems rest links' multiErr
      end
  end.

(** Lines 126-130: [multiErr.ErrorOrNil()], then the backoff reset. *)
Definition finishCycle (multiErr : list error) : Prog (option error) :=
  match multiErr with
  | [] => trigger ResetRestartBackoff ;; ret None
  | _ :: _ => ret (Some (multiError multiErr))
  end.

(** Lines 115-130: the reconcile decision over all items. *)
Definition reconcile (items : list LinkSpec.t) (links : list KernelLink.t)
  : Prog (option error) :=
  '(_, multiErr) <- syncItems items links [] ;;
  finishCycle multiErr.

(** The runs of [syncLink] over [items] in list order, each on the
    snapshot the one before left: a trace and what the run returned. *)
Inductive syncedInOrder
  : list KernelLink.t -> list LinkSpec.t -> list (list Call * Returned) -> Prop :=
| synced_nil (links : list KernelLink.t) : syncedInOrder links [] []
| synced_cons (links : list KernelLink.t) (link : LinkSpec.t) (rest : list LinkSpec.t)
    (t : list Call) (out : Returned) (runs : list (list Call * Returned)) :
    exec (syncLink links link) t out ->
    syncedInOrder (fst out) rest runs ->
    syncedInOrder links (link :: rest) ((t, out) :: runs).

(** The body of the loop of [Run] after a wake, lines 92-130.  [Some err]
    is the error [Run] returns with, [None] sends it round the loop. *)
Definition cycle : Prog (option error) :=
  list <- trigger StoreList ;;
  match list with
  | inl err => ret (Some (errorf "error listing source network addresses: %w" [] (Some err)))
  | inr items =>
      err <- addFinalizers items ;;
      match err with
      | Some err => ret (Some err)
      | None =>
          '(links, err) <- trigger LinkList ;;
          match err with
          | Some err => ret (Some (errorf "error listing links: %w" [] (Some err)))
          | None => reconcile items links
          end
      end
  end.

End Sync.

(** ** What a peer diff means *)

(** The state a wireguard device keeps for one peer, in the form a patch
    entry carries it. *)
Module PeerState.
Record t := mk {
  PresharedKey : option Key;
  Endpoint : option net.UDPAddr;
  PersistentKeepaliveInterval : option Z;
  AllowedIPs : list net.IPNet
}.
End PeerState.

(** The peers of a device, by public key. *)
Definition Table : Type := Key -> option PeerState.t.

(** The state entry [c] carries, its allowed IPs put after [base]. *)
Definition carried (c : PeerConfig.t) (base : list net.IPNet) : PeerState.t :=
  {| PeerState.PresharedKey := PeerConfig.PresharedKey c;
     PeerState.Endpoint := PeerConfig.Endpoint c;
     PeerState.PersistentKeepaliveInterval := PeerConfig.PersistentKeepaliveInterval c;
     PeerState.AllowedIPs := base ++ PeerConfig.AllowedIPs c |}.

(** Modelled from the spec: the control client's [configure(name, patch)],
    which is outside the repository, on one peer entry.  A remove-entry
    drops the peer with that key; an add/replace entry "carries the full
    new peer state" and installs it under its key, the allowed IPs
    replacing the old ones when [ReplaceAllowedIPs] is set and extending
    them otherwise; [UpdateOnly] leaves an absent peer absent. *)
Definition applyPeer (c : PeerConfig.t) (d : Table) : Table :=
  fun k =>
    if Key_eqb (PeerConfig.PublicKey c) k then
      if PeerConfig.Remove c then None
      else match d k with
           | None => if PeerConfig.UpdateOnly c then None else Some (carried c [])
           | Some old =>
               Some (carried c (if PeerConfig.ReplaceAllowedIPs c then []
                                else PeerState.AllowedIPs old))
           end
    else d k.

(** The entries of a patch, applied in order. *)
Fixpoint applyPeers (entries : list PeerConfig.t) (d : Table) : Table :=
  match entries with
  | [] => d
  | c :: rest => applyPeers rest (applyPeer c d)
  end.

(** Whether a [(value, error)] result is a value. *)
Definition isOk {A : Type} (r : error + A) : bool :=
  match r with inr _ => true | inl _ => false end.

(** Keys of a peer list, and membership by key. *)
Definition keysOf (peers : list WireguardPeer.t) : list string :=
  map WireguardPeer.PublicKey peers.

Definition hasKey (peers : list WireguardPeer.t) (key : string) : bool :=
  existsb (fun p => String.eqb (WireguardPeer.PublicKey p) key) peers.

(** The keys of [a] that are not keys of [b], each once. *)
Definition keysOnlyIn (a b : list WireguardPeer.t) : list string :=
  nodup string_dec (filter (fun k => negb (hasKey b k)) (keysOf a)).

(** Size of the symmetric difference of the two key sets. *)
Definition symmetricDifference (existing desired : list WireguardPeer.t) : nat :=
  (length (keysOnlyIn existing desired) + length (keysOnlyIn desired existing))%nat.

(** Number of desired peers whose key is in [existing] with other content. *)
Definition contentMismatches (existing desired : list WireguardPeer.t) : nat :=
  length (filter (fun p =>
            existsb (fun q => String.eqb (WireguardPeer.PublicKey q) (WireguardPeer.PublicKey p)
                              && negb (peerEqual q p)) existing) desired).

(** Ascending by public key, every peer before every later one; with the
    strict order no key occurs twice. *)
Definition ascending (peers : list WireguardPeer.t) : Prop :=
  StronglySorted
    (fun p q => String.ltb (WireguardPeer.PublicKey p) (WireguardPeer.PublicKey q) = true)
    peers.

(** Ascending, a key possibly repeated: what sorting by [<] yields. *)
Definition ascendingWeak (peers : list WireguardPeer.t) : Prop :=
  StronglySorted
    (fun p q => String.leb (WireguardPeer.PublicKey p) (WireguardPeer.PublicKey q) = true)
    peers.

Definition keysAscending (keys : list string) : Prop :=
  StronglySorted (fun s t => String.ltb s t = true) keys.

(** An entry of the kinds the diff emits: a remove-entry, or an
    add/replace entry that replaces the allowed IPs. *)
Definition diffEntry (c : PeerConfig.t) : Prop :=
  PeerConfig.Remove c = true
  \/ (PeerConfig.Remove c = false /\ PeerConfig.ReplaceAllowedIPs c = true).

Section DiffSemantics.
Context {ext : Externals}.

(** The device table a peer list describes: each peer under its parsed
    key, with the state its add-entry carries. *)
Fixpoint tableOf (peers : list WireguardPeer.t) : Table :=
  fun k =>
    match peers with
    | [] => None
    | p :: rest =>
        match addPeer p with
        | inr c =>
            if Key_eqb (PeerConfig.PublicKey c) k then Some (carried c [])
            else tableOf rest k
        | inl _ => tableOf rest k
        end
    end.

(** Every string the encoder has to parse in the two specs parses. *)
Definition encodable (spec existing : WireguardSpec.t) : bool :=
  (String.eqb (WireguardSpec.PrivateKey existing) (WireguardSpec.PrivateKey spec)
   || isOk (ParseKey (WireguardSpec.PrivateKey spec)))
  && forallb (fun p => isOk (addPeer p))
       (WireguardSpec.Peers existing ++ WireguardSpec.Peers spec).

(** Two key strings that parse to one key. *)
Definition sameKey (s t : string) : bool :=
  match ParseKey s, ParseKey t with
  | inr a, inr b => Key_eqb a b
  | _, _ => false
  end.

(** Different key strings among [keys] parse to different keys. *)
Definition distinctKeys (keys : list string) : bool :=
  forallb (fun s => forallb (fun t => implb (sameKey s t) (String.eqb s t)) keys) keys.

(** The merge of [Encode] without the parsing: which peer is added or
    replaced ([OpAdd]) and which is removed ([OpRemove]), in order. *)
Inductive Op : Type :=
| OpAdd (peer : WireguardPeer.t)
| OpRemove (peer : WireguardPeer.t).

Definition opKey (op : Op) : string :=
  match op with
  | OpAdd peer => WireguardPeer.PublicKey peer
  | OpRemove peer => WireguardPeer.PublicKey peer
  end.

Definition encodeOp (op : Op) : error + PeerConfig.t :=
  match op with
  | OpAdd peer => addPeer peer
  | OpRemove peer => deletePeer peer
  end.

Equations? diffPeers (existing spec : list WireguardPeer.t) : list Op
    by wf (length existing + length spec)%nat lt :=
  diffPeers [] [] := [];
  diffPeers [] (rightPeer :: spec') := OpAdd rightPeer :: diffPeers [] spec';
  diffPeers (leftPeer :: existing') [] := OpRemove leftPeer :: diffPeers existing' [];
  diffPeers (leftPeer :: existing') (rightPeer :: spec')
    with String.compare (WireguardPeer.PublicKey leftPeer)
                        (WireguardPeer.PublicKey rightPeer) => {
    | Gt := OpAdd rightPeer :: diffPeers (leftPeer :: existing') spec';
    | Lt := OpRemove leftPeer :: diffPeers existing' (rightPeer :: spec');
    | Eq with peerEqual leftPeer rightPeer => {
        | true := diffPeers existing' spec';
        | false := OpAdd rightPeer :: diffPeers existing' spec' } }.
Proof. all: simpl; lia. Qed.

(** Encoding a list of operations, stopping at the first error. *)
Fixpoint encodeOps (ops : list Op) : error + list PeerConfig.t :=
  match ops with
  | [] => inr []
  | op :: rest =>
      match encodeOp op with
      | inl err => inl err
      | inr c =>
          match encodeOps rest with
          | inl err => inl err
          | inr cs => inr (c :: cs)
          end
      end
  end.

End DiffSemantics.

(** ** Reading a trace *)

Definition isLinkList (c : Call) : bool :=
  match c with
  | call e _ => match e with LinkList => true | _ => false end
  end.

Definition isLinkNew (c : Call) : bool :=
  match c with
  | call e _ => match e with LinkNew _ => true | _ => false end
  end.

Definition isLinkDelete (c : Call) : bool :=
  match c with
  | call e _ => match e with LinkDelete _ => true | _ => false end
  end.

Definition isLinkSet (c : Call) : bool :=
  match c with
  | call e _ => match e with LinkSet _ => true | _ => false end
  end.

(** A modification that carries attributes: the MTU request is the only
    one the controller builds. *)
Definition isMTUSet (c : Call) : bool :=
  match c with
  | call e _ =>
      match e with
      | LinkSet req =>
          match LinkMessage.Attributes req with Some _ => true | None => false end
      | _ => false
      end
  end.

Definition isResetRestartBackoff (c : Call) : bool :=
  match c with
  | call e _ => match e with ResetRestartBackoff => true | _ => false end
  end.

Definition noError (r : option error) : bool :=
  match r with None => true | Some _ => false end.

(** The call was answered without an error. *)
Definition succeeded (c : Call) : bool :=
  match c with
  | @call X e x =>
      match e in Event X return X -> bool with
      | StoreList => fun r => isOk r
      | AddFinalizer _ _ => noError
      | RemoveFinalizer _ _ => noError
      | LinkList => fun r => noError (snd r)
      | LinkNew _ => noError
      | LinkDelete _ => noError
      | LinkSet _ => noError
      | WgDevice _ => fun r => isOk r
      | WgConfigureDevice _ _ => noError
      | LinkRefreshBump _ => noError
      | ResetRestartBackoff => fun _ => true
      end x
  end.

Definition createdLink (c : Call) : bool := isLinkNew c && succeeded c.
Definition deletedLink (c : Call) : bool := isLinkDelete c && succeeded c.
Definition changedLinks (c : Call) : bool := createdLink c || deletedLink c.

(** Every call of [t] that satisfies [p] has a next call, and that one
    satisfies [q]. *)
Fixpoint eachFollowedBy (p q : Call -> bool) (t : list Call) : bool :=
  match t with
  | [] => true
  | c :: rest =>
      (if p c then match rest with c' :: _ => q c' | [] => false end else true)
      && eachFollowedBy p q rest
  end.

(** What a [conn.Link.List] call returned as the list. *)
Definition listed (c : Call) : option (list KernelLink.t) :=
  match c with
  | @call X e x =>
      match e in Event X return X -> option (list KernelLink.t) with
      | LinkList => fun r => Some (fst r)
      | _ => fun _ => None
      end x
  end.

(** The snapshot in force after the calls of [t], from [links]: the last
    list a [conn.Link.List] returned, if there was one. *)
Fixpoint current (t : list Call) (links : list KernelLink.t) : list KernelLink.t :=
  match t with
  | [] => links
  | c :: rest =>
      match listed c with
      | Some links' => current rest links'
      | None => current rest links
      end
  end.

(** The MTU requests of a trace, with their answers. *)
Fixpoint mtuSets (t : list Call) : list (LinkMessage.t * option error) :=
  match t with
  | [] => []
  | @call X e x :: rest =>
      match e in Event X return X -> list (LinkMessage.t * option error) with
      | LinkSet req =>
          fun r =>
            match LinkMessage.Attributes req with
            | Some _ => (req, r) :: mtuSets rest
            | None => mtuSets rest
            end
      | _ => fun _ => mtuSets rest
      end x
  end.

(** The errors of a list of runs, in order. *)
Definition errorsOf (runs : list (list Call * Returned)) : list error :=
  flat_map (fun run => match snd (snd run) with Some err => [err] | None => [] end) runs.

(** The snapshot [links], or [links] after the MTU of one entry was set. *)
Definition sameButMTU (links' links : list KernelLink.t) : Prop :=
  links' = links \/ exists i mtu, links' = setMTU links i mtu.

(** What [syncLink] returns with once the finalizer removal was answered
    with [r]. *)
Definition finalizerResult (links : list KernelLink.t) (r : option error) : Returned :=
  (links,
   match r with
   | Some err => Some (errorf "error removing finalizer: %w" [] (Some err))
   | None => None
   end).

(** The benign conditions of a running item: the physical interface is
    not there yet, or the logical link carries no type metadata. *)
Definition absentPhysical (links : list KernelLink.t) (spec : LinkSpecSpec.t) : Prop :=
  LinkSpecSpec.Logical spec = false /\ FindLink links (LinkSpecSpec.Name spec) = None.

Definition missingMetadata (links : list KernelLink.t) (spec : LinkSpecSpec.t) : Prop :=
  LinkSpecSpec.Logical spec = true
  /\ exists i existing,
       FindLink links (LinkSpecSpec.Name spec) = Some (i, existing)
       /\ LinkAttributes.Info (KernelLink.Attributes existing) = None.

(** ** A simulated host, to run the controller on concrete inputs *)

Module World.
Record t := mk {
  kernel : list KernelLink.t;
  device : Device.t;
  declared : list LinkSpec.t;
  nextIndex : Z
}.
End World.

Definition linkOfRequest (index : Z) (req : LinkMessage.t) : KernelLink.t :=
  {| KernelLink.Family := LinkMessage.Family req;
     KernelLink.Type_ := LinkMessage.Type_ req;
     KernelLink.Index := index;
     KernelLink.Flags := LinkMessage.Flags req;
     KernelLink.Change := 0;
     KernelLink.Attributes :=
       match LinkMessage.Attributes req with
       | Some a => a
       | None => LinkAttributes.mk "" 0 0 None
       end |}.

Definition modifyLink (req : LinkMessage.t) (link : KernelLink.t) : KernelLink.t :=
  if Z.eqb (KernelLink.Index link) (LinkMessage.Index req) then
    let a := KernelLink.Attributes link in
    {| KernelLink.Family := KernelLink.Family link;
       KernelLink.Type_ := KernelLink.Type_ link;
       KernelLink.Index := KernelLink.Index link;
       KernelLink.Flags :=
         Z.lor (Z.land (KernelLink.Flags link) (Z.lnot (LinkMessage.Change req)))
               (Z.land (LinkMessage.Flags req) (LinkMessage.Change req));
       KernelLink.Change := KernelLink.Change link;
       KernelLink.Attributes :=
         match LinkMessage.Attributes req with
         | Some r => LinkAttributes.mk (LinkAttributes.Name a) (LinkAttributes.MTU r)
                       (LinkAttributes.Type_ a) (LinkAttributes.Info a)
         | None => a
         end |}
  else link.

(** A host on which every call succeeds: links are created, deleted and
    modified in [World.kernel], the wireguard device is read as it is. *)
Definition simulate : Handler World.t :=
  fun X e =>
    match e in Event X return World.t -> X * World.t with
    | StoreList => fun w => (inr (World.declared w), w)
    | AddFinalizer _ _ => fun w => (None, w)
    | RemoveFinalizer _ _ => fun w => (None, w)
    | LinkList => fun w => ((World.kernel w, None), w)
    | LinkNew req => fun w =>
        (None,
         World.mk (World.kernel w ++ [linkOfRequest (World.nextIndex w) req])
           (World.device w) (World.declared w) (World.nextIndex w + 1))
    | LinkDelete index => fun w =>
        (None,
         World.mk (filter (fun l => negb (Z.eqb (KernelLink.Index l) index)) (World.kernel w))
           (World.device w) (World.declared w) (World.nextIndex w))
    | LinkSet req => fun w =>
        (None,
         World.mk (map (modifyLink req) (World.kernel w))
           (World.device w) (World.declared w) (World.nextIndex w))
    | WgDevice _ => fun w => (inr (World.device w), w)
    | WgConfigureDevice _ _ => fun w => (None, w)
    | LinkRefreshBump _ => fun w => (None, w)
    | ResetRestartBackoff => fun w => (tt, w)
    end.

(** Stand-ins for the library functions: a key is the bytes of its
    string, the empty string does not parse. *)
Definition sampleParseKey (s : string) : error + Key :=
  if String.eqb s "" then inl (errorString "wgtypes: incorrect key size")
  else inr (list_byte_of_string s).

Fixpoint insertPeer (p : WireguardPeer.t) (peers : list WireguardPeer.t)
  : list WireguardPeer.t :=
  match peers with
  | [] => [p]
  | q :: rest =>
      if String.ltb (WireguardPeer.PublicKey p) (WireguardPeer.PublicKey q)
      then p :: q :: rest
      else q :: insertPeer p rest
  end.

Definition sampleExternals : Externals := {|
  ParseKey := sampleParseKey;
  KeyString := string_of_list_byte;
  ResolveUDPAddr := fun s => inr (net.mkUDPAddr (list_byte_of_string s) 0 "");
  UDPAddrString := fun a => string_of_list_byte (net.AddrIP a);
  PrefixIPNet := fun p => net.mkIPNet (netip.As16 (netip.PrefixAddr p)) [];
  FromStdIPNet := fun n => netip.mkPrefix (netip.mkAddr (net.IP n) false "") 0;
  SortPeers := fun peers => fold_right insertPeer [] peers
|}.

(** ** Sample inputs *)

(** Peers "A", "B", "C", and "A" again with another keepalive. *)
Definition peerA : WireguardPeer.t := WireguardPeer.mk "A" "" "" 0 [].
Definition peerA' : WireguardPeer.t := WireguardPeer.mk "A" "" "" 25 [].
Definition peerB : WireguardPeer.t := WireguardPeer.mk "B" "" "" 0 [].
Definition peerC : WireguardPeer.t := WireguardPeer.mk "C" "" "" 0 [].
(** A peer whose key does not parse. *)
Definition peerBad : WireguardPeer.t := WireguardPeer.mk "" "" "" 0 [].

Definition withPeers (peers : list WireguardPeer.t) : WireguardSpec.t :=
  WireguardSpec.mk "" "" 0 0 peers.

(** The ports of the spec's example B. *)
Definition desiredPortZero : WireguardSpec.t := WireguardSpec.mk "" "" 0 0 [].
Definition existingPort51820 : WireguardSpec.t := WireguardSpec.mk "" "" 51820 0 [].

(** A kernel link. *)
Definition kernelLink (index : Z) (name : string) (info : option LinkInfo.t)
    (type mtu flags : Z) : KernelLink.t :=
  KernelLink.mk 0 type index flags 0 (LinkAttributes.mk name mtu 0 info).

(** A declared link with the zero wireguard spec. *)
Definition declaredLink (phase : Phase) (name : string) (logical up : bool)
    (kind : string) (type mtu : Z) : LinkSpec.t :=
  LinkSpec.mk (Metadata.mk name phase)
    (LinkSpecSpec.mk name logical up mtu kind type WireguardSpec.zero).

Definition vlanLink0 : KernelLink.t :=
  kernelLink 7 "link0" (Some (LinkInfo.mk "vlan" [])) 1 1500 0.
Definition wireguardLink0 : KernelLink.t :=
  kernelLink 7 "link0" (Some (LinkInfo.mk "wireguard" [])) 65534 1500 0.
Definition bareLink0 : KernelLink.t := kernelLink 7 "link0" None 65534 1500 0.
Definition eth0 : KernelLink.t := kernelLink 2 "eth0" None 1 1500 0.

Definition bondItem : LinkSpec.t :=
  declaredLink PhaseRunning "link0" true false "bond" 1 0.
Definition wireguardItem : LinkSpec.t :=
  declaredLink PhaseRunning "link0" true false "wireguard" 65534 0.
Definition wireguardItem1420 : LinkSpec.t :=
  declaredLink PhaseRunning "link0" true false "wireguard" 65534 1420.
Definition ethItem9000 : LinkSpec.t :=
  declaredLink PhaseRunning "eth0" false false "" 1 9000.
Definition goneLogicalItem : LinkSpec.t :=
  declaredLink PhaseTearingDown "link0" true false "wireguard" 65534 0.
Definition gonePhysicalItem : LinkSpec.t :=
  declaredLink PhaseTearingDown "eth0" false false "" 1 0.

(** The link the simulated host makes of the create request for
    [wireguardItem], and the device it reports. *)
Definition createdLink0 : KernelLink.t :=
  kernelLink 8 "link0" (Some (LinkInfo.mk "wireguard" [])) 65534 0 0.
Definition emptyDevice : Device.t := Device.mk [] [] 0 0 [].

Definition world (kernel : list KernelLink.t) : World.t :=
  World.mk kernel emptyDevice [] 8.

(** ** Notions the proofs use *)

(** Keys above a bound. *)
Definition above (k : string) (peers : list WireguardPeer.t) : Prop :=
  Forall (fun p => String.ltb k (WireguardPeer.PublicKey p) = true) peers.

(** The symmetric difference counted on the peers rather than on keys. *)
Definition symmetricDifferenceCount (existing desired : list WireguardPeer.t) : nat :=
  (length (filter (fun p => negb (hasKey desired (WireguardPeer.PublicKey p))) existing)
   + length (filter (fun p => negb (hasKey existing (WireguardPeer.PublicKey p))) desired))%nat.

(** Where the operations of a diff come from. *)
Definition opFrom (existing spec : list WireguardPeer.t) (op : Op) : Prop :=
  match op with
  | OpAdd peer => In peer spec
  | OpRemove peer => In peer existing
  end.

(** The error of line 291. *)
Definition clientMissing (spec : LinkSpecSpec.t) : error :=
  errorf "wireguard client not available, cannot configure wireguard link %q"
    [LinkSpecSpec.Name spec] None.

Section ProofNotions.
Context {ext : Externals}.

(** Distinct key strings of [universe] parse to distinct keys. *)
Definition injectiveOn (universe : list WireguardPeer.t) : Prop :=
forall p q k, In p universe -> In q universe ->
  ParseKey (WireguardPeer.PublicKey p) = inr k ->
  ParseKey (WireguardPeer.PublicKey q) = inr k ->
  WireguardPeer.PublicKey p = WireguardPeer.PublicKey q.

(** The table after a diff of [existing] against [spec], from [d]. *)
Definition merged (existing spec : list WireguardPeer.t) (d : Table) : Table :=
fun k =>
  match tableOf spec k with
  | Some st => Some st
  | None => match tableOf existing k with
            | Some _ => None
            | None => d k
            end
  end.

(** [d] has the peers of [existing] under their keys. *)
Definition agrees (d : Table) (existing : list WireguardPeer.t) : Prop :=
forall k, tableOf existing k <> None -> d k = tableOf existing k.

(** What [Decode] makes of one device peer. *)
Definition decodedAs (p : Peer.t) (q : WireguardPeer.t) : Prop :=
WireguardPeer.PublicKey q = KeyString (Peer.PublicKey p)
/\ (Peer.PresharedKey p = zeroKey -> WireguardPeer.PresharedKey q = "")
/\ (Peer.PresharedKey p <> zeroKey ->
    WireguardPeer.PresharedKey q = KeyString (Peer.PresharedKey p))
/\ (Peer.Endpoint p = None -> WireguardPeer.Endpoint q = "")
/\ (forall a, Peer.Endpoint p = Some a -> WireguardPeer.Endpoint q = UDPAddrString a)
/\ WireguardPeer.PersistentKeepaliveInterval q = Peer.PersistentKeepaliveInterval p
/\ WireguardPeer.AllowedIPs q = map FromStdIPNet (Peer.AllowedIPs p).

End ProofNotions.

(** ** More readers of a trace *)

Definition isAddFinalizer (c : Call) : bool :=
  match c with
  | call e _ => match e with AddFinalizer _ _ => true | _ => false end
  end.

Definition isRemoveFinalizer (c : Call) : bool :=
  match c with
  | call e _ => match e with RemoveFinalizer _ _ => true | _ => false end
  end.

Definition isConfigure (c : Call) : bool :=
  match c with
  | call e _ => match e with WgConfigureDevice _ _ => true | _ => false end
  end.

Definition isLinkRefreshBump (c : Call) : bool :=
  match c with
  | call e _ => match e with LinkRefreshBump _ => true | _ => false end
  end.

(** A call on the wireguard client, or the refresh notification that
    goes with it. *)
Definition isWireguardCall (c : Call) : bool :=
  match c with
  | call e _ =>
      match e with
      | WgDevice _ => true
      | WgConfigureDevice _ _ => true
      | LinkRefreshBump _ => true
      | _ => false
      end
  end.

(** A call that changes a kernel link or the wireguard device. *)
Definition isMutation (c : Call) : bool :=
  isLinkNew c || isLinkDelete c || isLinkSet c || isConfigure c.

Definition configured (c : Call) : bool := isConfigure c && succeeded c.

Definition countCalls (p : Call -> bool) (t : list Call) : nat := length (filter p t).

(** The flags-only requests of a trace, with their answers. *)
Fixpoint flagSets (t : list Call) : list (LinkMessage.t * option error) :=
  match t with
  | [] => []
  | @call X e x :: rest =>
      match e in Event X return X -> list (LinkMessage.t * option error) with
      | LinkSet req =>
          fun r =>
            match LinkMessage.Attributes req with
            | Some _ => flagSets rest
            | None => (req, r) :: flagSets rest
            end
      | _ => fun _ => flagSets rest
      end x
  end.

(** What the first [wgClient.Device] call of a trace was answered. *)
Fixpoint deviceRead (t : list Call) : option (error + Device.t) :=
  match t with
  | [] => None
  | @call X e x :: rest =>
      match e in Event X return X -> option (error + Device.t) with
      | WgDevice _ => fun r => Some r
      | _ => fun _ => deviceRead rest
      end x
  end.

(** [existingUp] of line 331. *)
Definition existingUp (existing : KernelLink.t) : bool :=
  Z.eqb (Z.land (KernelLink.Flags existing) IFF_UP) IFF_UP.

Definition isAggregate (err : error) : bool :=
  match err with multiError _ => true | _ => false end.

(** The zero [wgtypes.Config]: a patch that changes nothing. *)
Definition emptyConfig : Config.t := Config.mk None None None false [].

Definition isRunning (res : LinkSpec.t) : bool :=
  match Metadata.Phase_ (LinkSpec.Metadata_ res) with
  | PhaseRunning => true
  | PhaseTearingDown => false
  end.

(** The accepted [AddFinalizer] call for [res]. *)
Definition finalizerAdded (res : LinkSpec.t) : Call :=
  call (AddFinalizer (LinkSpec.Metadata_ res) ctrlName) None.

(** The device peer [p] as an add/replace entry. *)
Definition entryOfPeer (p : Peer.t) : PeerConfig.t :=
  {| PeerConfig.PublicKey := Peer.PublicKey p;
     PeerConfig.Remove := false;
     PeerConfig.UpdateOnly := false;
     PeerConfig.PresharedKey :=
       if Key_eqb (Peer.PresharedKey p) zeroKey then None else Some (Peer.PresharedKey p);
     PeerConfig.Endpoint := Peer.Endpoint p;
     PeerConfig.PersistentKeepaliveInterval := Some (Peer.PersistentKeepaliveInterval p);
     PeerConfig.ReplaceAllowedIPs := true;
     PeerConfig.AllowedIPs := Peer.AllowedIPs p |}.

Section MoreNotions.
Context {ext : Externals}.

(** [existingSpec] of lines 299-302: the device decoded as a config view,
    its peers sorted. *)
Definition decodedSorted (dev : Device.t) : WireguardSpec.t :=
  let decoded := Decode WireguardSpec.zero dev false in
  WireguardSpec.mk (WireguardSpec.PrivateKey decoded)
    (WireguardSpec.PublicKey decoded) (WireguardSpec.ListenPort decoded)
    (WireguardSpec.FirewallMark decoded)
    (SortPeers (WireguardSpec.Peers decoded)).

(** The declared wireguard spec after line 304 sorted its peers. *)
Definition desiredSorted (spec : LinkSpecSpec.t) : WireguardSpec.t :=
  let wanted := LinkSpecSpec.Wireguard spec in
  WireguardSpec.mk (WireguardSpec.PrivateKey wanted)
    (WireguardSpec.PublicKey wanted) (WireguardSpec.ListenPort wanted)
    (WireguardSpec.FirewallMark wanted)
    (SortPeers (WireguardSpec.Peers wanted)).

(** The strings [Decode] writes for the device peer [p] read back as what
    they were written from. *)
Definition readsBack (p : Peer.t) : Prop :=
  ParseKey (KeyString (Peer.PublicKey p)) = inr (Peer.PublicKey p)
  /\ (Peer.PresharedKey p <> zeroKey ->
      KeyString (Peer.PresharedKey p) <> ""
      /\ ParseKey (KeyString (Peer.PresharedKey p)) = inr (Peer.PresharedKey p))
  /\ (forall a, Peer.Endpoint p = Some a ->
        UDPAddrString a <> "" /\ ResolveUDPAddr (UDPAddrString a) = inr a)
  /\ Forall (fun n => PrefixIPNet (FromStdIPNet n) = n) (Peer.AllowedIPs p).

End MoreNotions.

(** A device peer with a preshared key and an endpoint. *)
Definition devicePeerA : Peer.t :=
  Peer.mk (list_byte_of_string "A") (list_byte_of_string "psk")
    (Some (net.mkUDPAddr (list_byte_of_string "10.0.0.1:51820") 0 "")) 25 [].

Definition wireguardLinkUp : KernelLink.t :=
  kernelLink 7 "link0" (Some (LinkInfo.mk "wireguard" [])) 65534 1500 1.
Definition ethItemUp : LinkSpec.t :=
  declaredLink PhaseRunning "eth0" false true "" 1 0.
Definition ethItem1500 : LinkSpec.t :=
  declaredLink PhaseRunning "eth0" false false "" 1 1500.
Definition wireguardItemPeerA : LinkSpec.t :=
  LinkSpec.mk (Metadata.mk "link0" PhaseRunning)
    (LinkSpecSpec.mk "link0" true false 0 "wireguard" 65534 (withPeers [peerA])).

(** A host that declares [items]. *)
Definition declaredWorld (kernel : list KernelLink.t) (items : list LinkSpec.t) : World.t :=
  World.mk kernel emptyDevice items 8.

(** The patch that adds [peerA]. *)
Definition patchAddA : Config.t :=
  Config.mk None None None false
    [PeerConfig.mk (list_byte_of_string "A") false false None None (Some 0%Z) true []].

(** ** Tactics *)

(** Takes a hypothesis [exec p t a] apart along the calls and branches
    of [p]. *)
Ltac exec_inv H :=
  cbv [bind ret Monad_Prog trigger andThen] in H; cbn [bindProg exec negb] in H;
  lazymatch type of H with
  | exists x, _ => let y := fresh x in destruct H as [y H]; exec_inv H
  | _ = [] /\ _ = _ => let E1 := fresh "E" in let E2 := fresh "E" in
                        destruct H as [E1 E2]; subst
  | _ = _ :: _ /\ _ => let E := fresh "E" in destruct H as [E H]; exec_inv H
  | context [match ?x with _ => _ end] =>
      let E := fresh "Hcase" in
      lazymatch x with
      | negb ?b => destruct b eqn:E
      | _ => destruct x eqn:E
      end; try discriminate E; exec_inv H
  | _ => idtac
  end.

Ltac running_inv H Hphase :=
  unfold syncLink in H; rewrite Hphase in H;
  unfold running, replaceMismatched, createMissing, syncSettings,
    syncWireguard, syncUp, syncMTU in H.

(** * Proofs *)

Unset Implicit Arguments.

(** ** The order on keys *)

Lemma ltb_compare (s t : string) : String.ltb s t = true <-> String.compare s t = Lt.
Proof. unfold String.ltb. destruct (String.compare s t); split; congruence. Qed.

Lemma compare_Gt_ltb (s t : string) : String.compare s t = Gt -> String.ltb t s = true.
Proof.
  intros H. apply ltb_compare. rewrite String.compare_antisym, H. reflexivity.
Qed.

Lemma ltb_trans (s t u : string) :
  String.ltb s t = true -> String.ltb t u = true -> String.ltb s u = true.
Proof.
  rewrite !ltb_compare. fold (String_as_OT.cmp s t) (String_as_OT.cmp t u) (String_as_OT.cmp s u).
  rewrite !String_as_OT.cmp_lt. apply String_as_OT.lt_trans.
Qed.

Lemma ltb_neq (s t : string) : String.ltb s t = true -> s <> t.
Proof.
  rewrite ltb_compare. intros H E. subst t.
  assert (String.compare s s = Eq) by (apply String_as_OT.cmp_eq; reflexivity).
  congruence.
Qed.

Lemma Key_eqb_eq (a b : Key) : Key_eqb a b = true <-> a = b.
Proof. unfold Key_eqb. destruct (list_eq_dec Byte.byte_eq_dec a b); split; congruence. Qed.

Lemma Key_eqb_refl (a : Key) : Key_eqb a a = true.
Proof. apply Key_eqb_eq. reflexivity. Qed.

Lemma peerEqual_eq (p q : WireguardPeer.t) : peerEqual p q = true <-> p = q.
Proof. unfold peerEqual. destruct (WireguardPeer_eq_dec p q); split; congruence. Qed.


Lemma ascending_inv (a : WireguardPeer.t) (l : list WireguardPeer.t) :
  ascending (a :: l) -> ascending l /\ above (WireguardPeer.PublicKey a) l.
Proof. intros H. apply StronglySorted_inv in H. exact H. Qed.

Lemma above_trans (k k' : string) (l : list WireguardPeer.t) :
  String.ltb k' k = true -> above k l -> above k' l.
Proof.
  intros Hk H. unfold above in *. rewrite Forall_forall in *.
  intros p Hp. eapply ltb_trans; eauto.
Qed.

Lemma above_cons (k : string) (a : WireguardPeer.t) (l : list WireguardPeer.t) :
  String.ltb k (WireguardPeer.PublicKey a) = true -> above (WireguardPeer.PublicKey a) l ->
  above k (a :: l).
Proof.
  intros Hk H. constructor; [exact Hk|]. eapply above_trans; eauto.
Qed.

Lemma above_neq (k : string) (l : list WireguardPeer.t) (p : WireguardPeer.t) :
  above k l -> In p l -> String.eqb (WireguardPeer.PublicKey p) k = false.
Proof.
  intros H Hp. unfold above in H. rewrite Forall_forall in H.
  apply String.eqb_neq. intros E. apply (ltb_neq _ _ (H p Hp)). congruence.
Qed.

Lemma hasKey_above (k : string) (l : list WireguardPeer.t) :
  above k l -> hasKey l k = false.
Proof.
  intros H. unfold hasKey. induction H as [|p l Hp Hl IH]; simpl; [reflexivity|].
  rewrite IH, orb_false_r. apply String.eqb_neq. intros E.
  apply (ltb_neq _ _ Hp). congruence.
Qed.

Lemma existsb_above (k : string) (f : WireguardPeer.t -> bool) (l : list WireguardPeer.t) :
  above k l ->
  existsb (fun q => String.eqb (WireguardPeer.PublicKey q) k && f q) l = false.
Proof.
  intros H. induction H as [|p l Hp Hl IH]; simpl; [reflexivity|].
  rewrite IH, orb_false_r.
  replace (String.eqb (WireguardPeer.PublicKey p) k) with false; [reflexivity|].
  symmetry. apply String.eqb_neq. intros E. apply (ltb_neq _ _ Hp). congruence.
Qed.

Lemma compare_Eq_eq (s t : string) : String.compare s t = Eq -> s = t.
Proof. apply String.compare_eq_iff. Qed.

Lemma compare_Lt_ltb (s t : string) : String.compare s t = Lt -> String.ltb s t = true.
Proof. apply ltb_compare. Qed.


Lemma above_keys_ne (k : string) (peers : list WireguardPeer.t) :
  above k peers -> forall p, In p peers -> WireguardPeer.PublicKey p <> k.
Proof.
  intros H p Hp. unfold above in H. rewrite Forall_forall in H.
  intros E. apply (ltb_neq _ _ (H p Hp)). congruence.
Qed.

Lemma ascending_NoDup (l : list WireguardPeer.t) : ascending l -> NoDup (keysOf l).
Proof.
  induction l as [|a l IH]; intros H; simpl; constructor.
  - apply ascending_inv in H. destruct H as [_ Ha].
    intros Hin. unfold keysOf in Hin. apply in_map_iff in Hin.
    destruct Hin as (p & Hp & Hpl).
    apply (above_keys_ne _ _ Ha p Hpl). exact Hp.
  - apply IH. apply ascending_inv in H. tauto.
Qed.

Lemma filter_keys_length (f : string -> bool) (l : list WireguardPeer.t) :
  length (filter f (keysOf l)) = length (filter (fun p => f (WireguardPeer.PublicKey p)) l).
Proof.
  induction l as [|a l IH]; simpl; [reflexivity|].
  destruct (f (WireguardPeer.PublicKey a)); simpl; rewrite IH; reflexivity.
Qed.

Lemma keysOnlyIn_length (a b : list WireguardPeer.t) :
  ascending a ->
  length (keysOnlyIn a b)
  = length (filter (fun p => negb (hasKey b (WireguardPeer.PublicKey p))) a).
Proof.
  intros H. unfold keysOnlyIn.
  rewrite nodup_fixed_point; [apply filter_keys_length|].
  apply NoDup_filter. apply ascending_NoDup. exact H.
Qed.

Lemma symmetricDifference_count (existing desired : list WireguardPeer.t) :
  ascending existing -> ascending desired ->
  symmetricDifference existing desired = symmetricDifferenceCount existing desired.
Proof.
  intros Hl Hr. unfold symmetricDifference, symmetricDifferenceCount.
  rewrite (keysOnlyIn_length _ _ Hl), (keysOnlyIn_length _ _ Hr). reflexivity.
Qed.

Lemma filter_length_ext_in (A : Type) (f g : A -> bool) (l : list A) :
  (forall x, In x l -> f x = g x) -> length (filter f l) = length (filter g l).
Proof. intros H. rewrite (filter_ext_in f g l H). reflexivity. Qed.

Lemma hasKey_cons (q : WireguardPeer.t) (l : list WireguardPeer.t) (k : string) :
  hasKey (q :: l) k = String.eqb (WireguardPeer.PublicKey q) k || hasKey l k.
Proof. reflexivity. Qed.

Lemma symmetricDifferenceCount_Gt (a b : WireguardPeer.t) (l r : list WireguardPeer.t) :
  above (WireguardPeer.PublicKey b) (a :: l) ->
  symmetricDifferenceCount (a :: l) (b :: r) = S (symmetricDifferenceCount (a :: l) r).
Proof.
  intros Hb. unfold symmetricDifferenceCount.
  rewrite (filter_length_ext_in _
             (fun p => negb (hasKey (b :: r) (WireguardPeer.PublicKey p)))
             (fun p => negb (hasKey r (WireguardPeer.PublicKey p))) (a :: l)).
  - cbn [filter]. rewrite (hasKey_above _ _ Hb). cbn [negb length]. lia.
  - intros p Hp. rewrite hasKey_cons.
    unfold above in Hb. rewrite Forall_forall in Hb.
    replace (String.eqb (WireguardPeer.PublicKey b) (WireguardPeer.PublicKey p)) with false;
      [reflexivity|].
    symmetry. apply String.eqb_neq. apply ltb_neq. apply Hb. exact Hp.
Qed.

Lemma contentMismatches_Gt (a b : WireguardPeer.t) (l r : list WireguardPeer.t) :
  above (WireguardPeer.PublicKey b) (a :: l) ->
  contentMismatches (a :: l) (b :: r) = contentMismatches (a :: l) r.
Proof.
  intros Hb. unfold contentMismatches. cbn [filter].
  rewrite (existsb_above _ (fun q => negb (peerEqual q b)) _ Hb). reflexivity.
Qed.

Lemma symmetricDifferenceCount_Lt (a b : WireguardPeer.t) (l r : list WireguardPeer.t) :
  above (WireguardPeer.PublicKey a) (b :: r) ->
  symmetricDifferenceCount (a :: l) (b :: r) = S (symmetricDifferenceCount l (b :: r)).
Proof.
  intros Ha. unfold symmetricDifferenceCount.
  rewrite (filter_length_ext_in _
             (fun p => negb (hasKey (a :: l) (WireguardPeer.PublicKey p)))
             (fun p => negb (hasKey l (WireguardPeer.PublicKey p))) (b :: r)).
  - cbn [filter]. rewrite (hasKey_above _ _ Ha). cbn [negb length]. lia.
  - intros p Hp. rewrite hasKey_cons.
    unfold above in Ha. rewrite Forall_forall in Ha.
    replace (String.eqb (WireguardPeer.PublicKey a) (WireguardPeer.PublicKey p)) with false;
      [reflexivity|].
    symmetry. apply String.eqb_neq. apply ltb_neq. apply Ha. exact Hp.
Qed.

Lemma contentMismatches_Lt (a b : WireguardPeer.t) (l r : list WireguardPeer.t) :
  above (WireguardPeer.PublicKey a) (b :: r) ->
  contentMismatches (a :: l) (b :: r) = contentMismatches l (b :: r).
Proof.
  intros Ha. unfold contentMismatches.
  apply filter_length_ext_in. intros p Hp. cbn [existsb].
  unfold above in Ha. rewrite Forall_forall in Ha.
  replace (String.eqb (WireguardPeer.PublicKey a) (WireguardPeer.PublicKey p)) with false;
    [reflexivity|].
  symmetry. apply String.eqb_neq. apply ltb_neq. apply Ha. exact Hp.
Qed.

Lemma symmetricDifferenceCount_Eq (a b : WireguardPeer.t) (l r : list WireguardPeer.t) :
  WireguardPeer.PublicKey a = WireguardPeer.PublicKey b ->
  above (WireguardPeer.PublicKey a) l -> above (WireguardPeer.PublicKey b) r ->
  symmetricDifferenceCount (a :: l) (b :: r) = symmetricDifferenceCount l r.
Proof.
  intros E Ha Hb. unfold symmetricDifferenceCount. cbn [filter].
  rewrite !hasKey_cons, <- E, String.eqb_refl. cbn [orb negb].
  f_equal; apply filter_length_ext_in; intros p Hp; rewrite hasKey_cons.
  - rewrite E in Ha. rewrite String.eqb_sym, (above_neq _ _ p Ha Hp). reflexivity.
  - rewrite <- E in Hb. rewrite E at 1. rewrite String.eqb_sym.
    rewrite <- E. rewrite (above_neq _ _ p Hb Hp). reflexivity.
Qed.

Lemma contentMismatches_Eq (a b : WireguardPeer.t) (l r : list WireguardPeer.t) :
  WireguardPeer.PublicKey a = WireguardPeer.PublicKey b ->
  above (WireguardPeer.PublicKey a) l -> above (WireguardPeer.PublicKey b) r ->
  contentMismatches (a :: l) (b :: r)
  = ((if peerEqual a b then 0 else 1) + contentMismatches l r)%nat.
Proof.
  intros E Ha Hb. unfold contentMismatches. cbn [filter existsb].
  rewrite E, String.eqb_refl. cbn [andb].
  rewrite <- E in *.
  rewrite (existsb_above _ (fun q => negb (peerEqual q b)) _ Ha), orb_false_r.
  assert (Hrest :
    length (filter (fun p =>
       String.eqb (WireguardPeer.PublicKey a) (WireguardPeer.PublicKey p) && negb (peerEqual a p)
       || existsb (fun q => String.eqb (WireguardPeer.PublicKey q) (WireguardPeer.PublicKey p)
                            && negb (peerEqual q p)) l) r)
    = length (filter (fun p =>
         existsb (fun q => String.eqb (WireguardPeer.PublicKey q) (WireguardPeer.PublicKey p)
                           && negb (peerEqual q p)) l) r)).
  { apply filter_length_ext_in. intros p Hp.
    rewrite String.eqb_sym, (above_neq _ _ p Hb Hp). reflexivity. }
  destruct (peerEqual a b); cbn [negb length]; rewrite Hrest; reflexivity.
Qed.

Section Proofs.
Context {ext : Externals}.

Lemma mergePeers_cases (existing spec : list WireguardPeer.t) (peers : list PeerConfig.t) :
  mergePeers existing spec peers =
  match existing, spec with
  | [], [] => inr peers
  | [], rightPeer :: spec' =>
      match addPeer rightPeer with
      | inl err => inl err
      | inr c => mergePeers [] spec' (peers ++ [c])
      end
  | leftPeer :: existing', [] =>
      match deletePeer leftPeer with
      | inl err => inl err
      | inr c => mergePeers existing' [] (peers ++ [c])
      end
  | leftPeer :: existing', rightPeer :: spec' =>
      match String.compare (WireguardPeer.PublicKey leftPeer)
              (WireguardPeer.PublicKey rightPeer) with
      | Gt => match addPeer rightPeer with
              | inl err => inl err
              | inr c => mergePeers existing spec' (peers ++ [c])
              end
      | Lt => match deletePeer leftPeer with
              | inl err => inl err
              | inr c => mergePeers existing' spec (peers ++ [c])
              end
      | Eq => if peerEqual leftPeer rightPeer
              then mergePeers existing' spec' peers
              else match addPeer rightPeer with
                   | inl err => inl err
                   | inr c => mergePeers existing' spec' (peers ++ [c])
                   end
      end
  end.
Proof.
  destruct existing as [|leftPeer existing'], spec as [|rightPeer spec'];
    simp mergePeers; try reflexivity.
  - destruct (addPeer rightPeer); reflexivity.
  - destruct (deletePeer leftPeer); reflexivity.
  - destruct (String.compare _ _); simpl.
    + destruct (peerEqual leftPeer rightPeer); simpl; [reflexivity|].
      destruct (addPeer rightPeer); reflexivity.
    + destruct (deletePeer leftPeer); reflexivity.
    + destruct (addPeer rightPeer); reflexivity.
Qed.

Lemma diffPeers_cases (existing spec : list WireguardPeer.t) :
  diffPeers existing spec =
  match existing, spec with
  | [], [] => []
  | [], rightPeer :: spec' => OpAdd rightPeer :: diffPeers [] spec'
  | leftPeer :: existing', [] => OpRemove leftPeer :: diffPeers existing' []
  | leftPeer :: existing', rightPeer :: spec' =>
      match String.compare (WireguardPeer.PublicKey leftPeer)
              (WireguardPeer.PublicKey rightPeer) with
      | Gt => OpAdd rightPeer :: diffPeers existing spec'
      | Lt => OpRemove leftPeer :: diffPeers existing' spec
      | Eq => if peerEqual leftPeer rightPeer
              then diffPeers existing' spec'
              else OpAdd rightPeer :: diffPeers existing' spec'
      end
  end.
Proof.
  destruct existing as [|leftPeer existing'], spec as [|rightPeer spec'];
    simp diffPeers; try reflexivity.
  destruct (String.compare _ _); simpl; try reflexivity.
  destruct (peerEqual leftPeer rightPeer); reflexivity.
Qed.

Lemma mergePeers_encodeOps (existing spec : list WireguardPeer.t) :
  forall peers : list PeerConfig.t,
  mergePeers existing spec peers =
  match encodeOps (diffPeers existing spec) with
  | inl err => inl err
  | inr cs => inr (peers ++ cs)
  end.
Proof.
  revert spec.
  induction existing as [|leftPeer existing' IHl]; intros spec;
    induction spec as [|rightPeer spec' IHr]; intros peers;
    rewrite mergePeers_cases, diffPeers_cases.
  - simpl. rewrite app_nil_r. reflexivity.
  - simpl. destruct (addPeer rightPeer) as [err|c]; [reflexivity|].
    rewrite IHr. destruct (encodeOps _); [reflexivity|].
    rewrite <- app_assoc. reflexivity.
  - simpl. destruct (deletePeer leftPeer) as [err|c]; [reflexivity|].
    rewrite IHl. destruct (encodeOps _); [reflexivity|].
    rewrite <- app_assoc. reflexivity.
  - destruct (String.compare _ _); simpl.
    + clear IHr. destruct (peerEqual leftPeer rightPeer); simpl; [apply IHl|].
      destruct (addPeer rightPeer) as [err|c]; [reflexivity|].
      rewrite IHl. destruct (encodeOps (diffPeers existing' spec')); [reflexivity|].
      rewrite <- app_assoc. reflexivity.
    + clear IHr. destruct (deletePeer leftPeer) as [err|c]; [reflexivity|].
      rewrite IHl. destruct (encodeOps (diffPeers existing' (rightPeer :: spec'))); [reflexivity|].
      rewrite <- app_assoc. reflexivity.
    + destruct (addPeer rightPeer) as [err|c]; [reflexivity|].
      rewrite IHr. destruct (encodeOps (diffPeers (leftPeer :: existing') spec')); [reflexivity|].
      rewrite <- app_assoc. reflexivity.
Qed.

Lemma diffPeers_length (existing spec : list WireguardPeer.t) :
  ascending existing -> ascending spec ->
  length (diffPeers existing spec)
  = (symmetricDifferenceCount existing spec + contentMismatches existing spec)%nat.
Proof.
  revert spec.
  induction existing as [|a l IHl]; intros spec;
    induction spec as [|b r IHr]; intros Hl Hr;
    rewrite diffPeers_cases.
  - reflexivity.
  - apply ascending_inv in Hr. destruct Hr as [Hr Hb].
    simpl. rewrite (IHr Hl Hr).
    unfold symmetricDifferenceCount, contentMismatches. simpl. reflexivity.
  - apply ascending_inv in Hl. destruct Hl as [Hl Ha].
    simpl. rewrite (IHl [] Hl Hr).
    unfold symmetricDifferenceCount, contentMismatches. simpl. lia.
  - pose proof (ascending_inv _ _ Hl) as [Hl' Ha].
    pose proof (ascending_inv _ _ Hr) as [Hr' Hb].
    destruct (String.compare (WireguardPeer.PublicKey a) (WireguardPeer.PublicKey b)) eqn:Hc.
    + apply compare_Eq_eq in Hc.
      rewrite (@symmetricDifferenceCount_Eq a b l r Hc Ha Hb), (@contentMismatches_Eq a b l r Hc Ha Hb).
      destruct (peerEqual a b); simpl; rewrite (IHl r Hl' Hr'); lia.
    + apply compare_Lt_ltb in Hc.
      assert (Hab : above (WireguardPeer.PublicKey a) (b :: r)) by (apply above_cons; assumption).
      rewrite (@symmetricDifferenceCount_Lt a b l r Hab), (@contentMismatches_Lt a b l r Hab).
      simpl. rewrite (IHl (b :: r) Hl' Hr). lia.
    + apply compare_Gt_ltb in Hc.
      assert (Hba : above (WireguardPeer.PublicKey b) (a :: l)) by (apply above_cons; assumption).
      rewrite (@symmetricDifferenceCount_Gt a b l r Hba), (@contentMismatches_Gt a b l r Hba).
      simpl. rewrite (IHr Hl Hr'). lia.
Qed.

Lemma opFrom_weaken (l l' r r' : list WireguardPeer.t) (op : Op) :
  incl l l' -> incl r r' -> opFrom l r op -> opFrom l' r' op.
Proof. intros Hl Hr. destruct op; simpl; auto. Qed.

Lemma diffPeers_from (existing spec : list WireguardPeer.t) :
  Forall (opFrom existing spec) (diffPeers existing spec).
Proof.
  revert spec.
  induction existing as [|a l IHl]; intros spec;
    induction spec as [|b r IHr]; rewrite diffPeers_cases.
  - constructor.
  - constructor; [simpl; auto|].
    eapply Forall_impl; [|exact IHr]. intros op.
    apply opFrom_weaken; [apply incl_refl | apply incl_tl, incl_refl].
  - constructor; [simpl; auto|].
    eapply Forall_impl; [|exact (IHl [])]. intros op.
    apply opFrom_weaken; [apply incl_tl, incl_refl | apply incl_refl].
  - assert (Hboth : Forall (opFrom (a :: l) (b :: r)) (diffPeers l r)).
    { eapply Forall_impl; [|exact (IHl r)]. intros op.
      apply opFrom_weaken; apply incl_tl, incl_refl. }
    destruct (String.compare _ _).
    + destruct (peerEqual a b); [exact Hboth|].
      constructor; [simpl; auto | exact Hboth].
    + constructor; [simpl; auto|].
      eapply Forall_impl; [|exact (IHl (b :: r))]. intros op.
      apply opFrom_weaken; [apply incl_tl, incl_refl | apply incl_refl].
    + constructor; [simpl; auto|].
      eapply Forall_impl; [|exact IHr]. intros op.
      apply opFrom_weaken; [apply incl_refl | apply incl_tl, incl_refl].
Qed.

Lemma diffPeers_above (k : string) (existing spec : list WireguardPeer.t) :
  above k existing -> above k spec ->
  Forall (fun s => String.ltb k s = true) (map opKey (diffPeers existing spec)).
Proof.
  intros Hl Hr. apply Forall_map.
  eapply Forall_impl; [|apply diffPeers_from].
  unfold above in *. rewrite Forall_forall in Hl, Hr.
  intros [p|p]; simpl; auto.
Qed.

Lemma diffPeers_ascending (existing spec : list WireguardPeer.t) :
  ascending existing -> ascending spec ->
  keysAscending (map opKey (diffPeers existing spec)).
Proof.
  revert spec.
  induction existing as [|a l IHl]; intros spec;
    induction spec as [|b r IHr]; intros Hl Hr; rewrite diffPeers_cases.
  - constructor.
  - pose proof (ascending_inv _ _ Hr) as [Hr' Hb].
    simpl. constructor; [apply IHr; assumption|].
    apply diffPeers_above; [constructor | exact Hb].
  - pose proof (ascending_inv _ _ Hl) as [Hl' Ha].
    simpl. constructor; [apply IHl; assumption|].
    apply diffPeers_above; [exact Ha | constructor].
  - pose proof (ascending_inv _ _ Hl) as [Hl' Ha].
    pose proof (ascending_inv _ _ Hr) as [Hr' Hb].
    destruct (String.compare (WireguardPeer.PublicKey a) (WireguardPeer.PublicKey b)) eqn:Hc.
    + apply compare_Eq_eq in Hc.
      destruct (peerEqual a b); [apply IHl; assumption|].
      simpl. constructor; [apply IHl; assumption|].
      apply diffPeers_above; [rewrite <- Hc; exact Ha | exact Hb].
    + apply compare_Lt_ltb in Hc.
      simpl. constructor; [apply IHl; assumption|].
      apply diffPeers_above; [exact Ha | apply above_cons; assumption].
    + apply compare_Gt_ltb in Hc.
      simpl. constructor; [apply IHr; assumption|].
      apply diffPeers_above; [apply above_cons; assumption | exact Hb].
Qed.

Lemma addPeer_inv (p : WireguardPeer.t) (c : PeerConfig.t) :
  addPeer p = inr c ->
  ParseKey (WireguardPeer.PublicKey p) = inr (PeerConfig.PublicKey c)
  /\ PeerConfig.Remove c = false /\ PeerConfig.UpdateOnly c = false
  /\ PeerConfig.ReplaceAllowedIPs c = true.
Proof.
  unfold addPeer. cbn.
  destruct (ParseKey (WireguardPeer.PublicKey p)) as [e|k]; [discriminate|].
  destruct (String.eqb (WireguardPeer.PresharedKey p) "");
    [|destruct (ParseKey (WireguardPeer.PresharedKey p)); [discriminate|]];
    (destruct (String.eqb (WireguardPeer.Endpoint p) "");
     [|destruct (ResolveUDPAddr (WireguardPeer.Endpoint p)); [discriminate|]]);
    cbn; intros H; inversion H; subst; cbn; auto.
Qed.

Lemma deletePeer_inv (p : WireguardPeer.t) (c : PeerConfig.t) :
  deletePeer p = inr c ->
  ParseKey (WireguardPeer.PublicKey p) = inr (PeerConfig.PublicKey c)
  /\ PeerConfig.Remove c = true.
Proof.
  unfold deletePeer. cbn.
  destruct (ParseKey (WireguardPeer.PublicKey p)) as [e|k]; [discriminate|].
  intros H; inversion H; subst; cbn; auto.
Qed.

Lemma addPeer_deletePeer (p : WireguardPeer.t) (c : PeerConfig.t) :
  addPeer p = inr c -> exists c', deletePeer p = inr c'.
Proof.
  intros H. apply addPeer_inv in H. destruct H as [H _].
  unfold deletePeer. cbn. rewrite H. eexists. reflexivity.
Qed.

Lemma applyPeer_add (p : WireguardPeer.t) (c : PeerConfig.t) (d : Table) (k : Key) :
  addPeer p = inr c ->
  applyPeer c d k
  = if Key_eqb (PeerConfig.PublicKey c) k then Some (carried c []) else d k.
Proof.
  intros H. apply addPeer_inv in H. destruct H as (_ & Hr & Hu & Ha).
  unfold applyPeer. rewrite Hr, Hu, Ha.
  destruct (Key_eqb _ _); [|reflexivity]. destruct (d k); reflexivity.
Qed.

Lemma applyPeer_remove (p : WireguardPeer.t) (c : PeerConfig.t) (d : Table) (k : Key) :
  deletePeer p = inr c ->
  applyPeer c d k = if Key_eqb (PeerConfig.PublicKey c) k then None else d k.
Proof.
  intros H. apply deletePeer_inv in H. destruct H as (_ & Hr).
  unfold applyPeer. rewrite Hr. reflexivity.
Qed.

Lemma tableOf_cons (p : WireguardPeer.t) (c : PeerConfig.t)
    (peers : list WireguardPeer.t) (k : Key) :
  addPeer p = inr c ->
  tableOf (p :: peers) k
  = if Key_eqb (PeerConfig.PublicKey c) k then Some (carried c []) else tableOf peers k.
Proof. intros H. simpl. rewrite H. reflexivity. Qed.

Lemma tableOf_fresh (universe peers : list WireguardPeer.t) (x : WireguardPeer.t) (k : Key) :
  injectiveOn universe -> In x universe -> incl peers universe ->
  ParseKey (WireguardPeer.PublicKey x) = inr k ->
  (forall p, In p peers -> WireguardPeer.PublicKey p <> WireguardPeer.PublicKey x) ->
  tableOf peers k = None.
Proof.
  intros Hinj Hx Hincl Hk Hne.
  induction peers as [|p peers IH]; [reflexivity|].
  simpl. destruct (addPeer p) as [e|c] eqn:Hp.
  - apply IH; [eapply incl_cons_inv; eauto | intros; apply Hne; right; assumption].
  - destruct (Key_eqb (PeerConfig.PublicKey c) k) eqn:Hck.
    + exfalso. apply Key_eqb_eq in Hck. subst k.
      apply addPeer_inv in Hp. destruct Hp as [Hp _].
      apply (Hne p (or_introl eq_refl)).
      apply (Hinj p x (PeerConfig.PublicKey c)); auto.
      apply Hincl. left. reflexivity.
    + apply IH; [eapply incl_cons_inv; eauto | intros; apply Hne; right; assumption].
Qed.

Lemma encodeOps_cons (op : Op) (ops : list Op) (es : list PeerConfig.t) :
  encodeOps (op :: ops) = inr es ->
  exists c es', es = c :: es' /\ encodeOp op = inr c /\ encodeOps ops = inr es'.
Proof.
  simpl. destruct (encodeOp op) as [e|c]; [discriminate|].
  destruct (encodeOps ops) as [e|es']; [discriminate|].
  intros H. inversion H. eauto.
Qed.

Section Apply.
Variable universe : list WireguardPeer.t.
Hypothesis Hinj : injectiveOn universe.
Hypothesis Hok : forall p, In p universe -> isOk (addPeer p) = true.

Lemma ok_entry (p : WireguardPeer.t) :
  In p universe -> exists c, addPeer p = inr c.
Proof.
  intros Hp. specialize (Hok p Hp). destruct (addPeer p) as [e|c]; [discriminate|eauto].
Qed.

Lemma fresh_above (x : WireguardPeer.t) (c : PeerConfig.t) (peers : list WireguardPeer.t) :
  In x universe -> incl peers universe -> addPeer x = inr c ->
  above (WireguardPeer.PublicKey x) peers ->
  tableOf peers (PeerConfig.PublicKey c) = None.
Proof.
  intros Hx Hincl Hc Habove.
  apply (tableOf_fresh universe peers x); auto.
  - apply addPeer_inv in Hc. tauto.
  - apply above_keys_ne. exact Habove.
Qed.

Lemma applyPeers_diff (existing spec : list WireguardPeer.t) :
  incl existing universe -> incl spec universe ->
  ascending existing -> ascending spec ->
  forall es, encodeOps (diffPeers existing spec) = inr es ->
  forall d, agrees d existing ->
  forall k, applyPeers es d k = merged existing spec d k.
Proof.
  revert spec.
  induction existing as [|a l IHl]; intros spec;
    induction spec as [|b r IHr]; intros Il Ir Hl Hr es Hes d Hd k;
    rewrite diffPeers_cases in Hes.
  - inversion Hes. reflexivity.
  - pose proof (ascending_inv _ _ Hr) as [Hr' Hb].
    apply encodeOps_cons in Hes. destruct Hes as (c & es' & -> & Hc & Hes').
    simpl in Hc. assert (Ib : In b universe) by (apply Ir; left; reflexivity).
    assert (Ir' : incl r universe) by (eapply incl_cons_inv; eauto).
    simpl applyPeers.
    rewrite (IHr Il Ir' Hl Hr' es' Hes' (applyPeer c d)); [|intros k' Hk'; elim Hk'; reflexivity].
    unfold merged. rewrite (tableOf_cons _ _ r k Hc), (applyPeer_add _ _ d k Hc).
    destruct (Key_eqb (PeerConfig.PublicKey c) k) eqn:Hck; [|reflexivity].
    apply Key_eqb_eq in Hck. subst k.
    rewrite (fresh_above _ _ _ Ib Ir' Hc Hb). reflexivity.
  - pose proof (ascending_inv _ _ Hl) as [Hl' Ha].
    apply encodeOps_cons in Hes. destruct Hes as (c & es' & -> & Hc & Hes').
    simpl in Hc. assert (Ia : In a universe) by (apply Il; left; reflexivity).
    assert (Il' : incl l universe) by (eapply incl_cons_inv; eauto).
    destruct (ok_entry _ Ia) as [ca Hca].
    assert (Hkey : PeerConfig.PublicKey c = PeerConfig.PublicKey ca).
    { apply addPeer_inv in Hca. apply deletePeer_inv in Hc.
      destruct Hca as [Hca _], Hc as [Hc _]. congruence. }
    simpl applyPeers.
    rewrite (IHl [] Il' Ir Hl' Hr es' Hes' (applyPeer c d)).
    + unfold merged. simpl tableOf at 1. simpl tableOf at 2.
      rewrite (tableOf_cons _ _ l k Hca), (applyPeer_remove _ _ d k Hc), Hkey.
      destruct (Key_eqb (PeerConfig.PublicKey ca) k) eqn:Hck; [|reflexivity].
      apply Key_eqb_eq in Hck. subst k.
      rewrite (fresh_above _ _ _ Ia Il' Hca Ha). reflexivity.
    + intros k' Hk'. rewrite (applyPeer_remove _ _ d k' Hc), Hkey.
      destruct (Key_eqb (PeerConfig.PublicKey ca) k') eqn:Hck.
      * apply Key_eqb_eq in Hck. subst k'.
        elim Hk'. apply (fresh_above _ _ _ Ia Il' Hca Ha).
      * rewrite (Hd k'); rewrite (tableOf_cons _ _ l k' Hca), Hck; [reflexivity | exact Hk'].
  - pose proof (ascending_inv _ _ Hl) as [Hl' Ha].
    pose proof (ascending_inv _ _ Hr) as [Hr' Hb].
    assert (Ia : In a universe) by (apply Il; left; reflexivity).
    assert (Il' : incl l universe) by (eapply incl_cons_inv; eauto).
    assert (Ib : In b universe) by (apply Ir; left; reflexivity).
    assert (Ir' : incl r universe) by (eapply incl_cons_inv; eauto).
    destruct (ok_entry _ Ia) as [ca Hca].
    destruct (ok_entry _ Ib) as [cb Hcb].
    assert (Hd' : agrees d l).
    { intros k' Hk'. rewrite (Hd k'); rewrite (tableOf_cons _ _ l k' Hca).
      - destruct (Key_eqb (PeerConfig.PublicKey ca) k') eqn:Hck; [|reflexivity].
        apply Key_eqb_eq in Hck. subst k'.
        elim Hk'. apply (fresh_above _ _ _ Ia Il' Hca Ha).
      - destruct (Key_eqb (PeerConfig.PublicKey ca) k'); [discriminate | exact Hk']. }
    destruct (String.compare (WireguardPeer.PublicKey a) (WireguardPeer.PublicKey b)) eqn:Hcmp.
    + apply compare_Eq_eq in Hcmp.
      assert (Hkey : PeerConfig.PublicKey ca = PeerConfig.PublicKey cb).
      { apply addPeer_inv in Hca. apply addPeer_inv in Hcb.
        destruct Hca as [Hca _], Hcb as [Hcb _]. congruence. }
      assert (Hal : tableOf l (PeerConfig.PublicKey ca) = None)
        by apply (fresh_above _ _ _ Ia Il' Hca Ha).
      assert (Hbr : tableOf r (PeerConfig.PublicKey cb) = None)
        by apply (fresh_above _ _ _ Ib Ir' Hcb Hb).
      destruct (peerEqual a b) eqn:Hab.
      * apply peerEqual_eq in Hab. subst b.
        assert (cb = ca) by congruence. subst cb.
        rewrite (IHl r Il' Ir' Hl' Hr' es Hes d Hd' k).
        unfold merged. rewrite (tableOf_cons _ _ r k Hca), (tableOf_cons _ _ l k Hca).
        destruct (Key_eqb (PeerConfig.PublicKey ca) k) eqn:Hck; [|reflexivity].
        apply Key_eqb_eq in Hck. subst k. rewrite Hal, Hbr.
        rewrite (Hd (PeerConfig.PublicKey ca));
          rewrite (tableOf_cons _ _ l _ Hca), Key_eqb_refl; [reflexivity | discriminate].
      * apply encodeOps_cons in Hes. destruct Hes as (c & es' & -> & Hc & Hes').
        simpl in Hc. assert (c = cb) by congruence. subst c.
        simpl applyPeers.
        rewrite (IHl r Il' Ir' Hl' Hr' es' Hes' (applyPeer cb d)).
        -- unfold merged.
           rewrite (tableOf_cons _ _ r k Hcb), (tableOf_cons _ _ l k Hca), (applyPeer_add _ _ d k Hcb), Hkey.
           destruct (Key_eqb (PeerConfig.PublicKey cb) k) eqn:Hck; [|reflexivity].
           apply Key_eqb_eq in Hck. subst k. rewrite Hbr, <- Hkey, Hal. reflexivity.
        -- intros k' Hk'. rewrite (applyPeer_add _ _ d k' Hcb).
           destruct (Key_eqb (PeerConfig.PublicKey cb) k') eqn:Hck; [|apply Hd'; exact Hk'].
           apply Key_eqb_eq in Hck. subst k'. rewrite <- Hkey in Hk'. contradiction.
    + apply compare_Lt_ltb in Hcmp.
      apply encodeOps_cons in Hes. destruct Hes as (c & es' & -> & Hc & Hes').
      simpl in Hc.
      assert (Hkey : PeerConfig.PublicKey c = PeerConfig.PublicKey ca).
      { pose proof (addPeer_inv _ _ Hca) as [H1 _]. apply deletePeer_inv in Hc.
        destruct Hc as [Hc _]. congruence. }
      assert (Hal : tableOf l (PeerConfig.PublicKey ca) = None)
        by apply (fresh_above _ _ _ Ia Il' Hca Ha).
      assert (Har : tableOf (b :: r) (PeerConfig.PublicKey ca) = None).
      { apply (fresh_above _ _ _ Ia Ir Hca). apply above_cons; assumption. }
      simpl applyPeers.
      rewrite (IHl (b :: r) Il' Ir Hl' Hr es' Hes' (applyPeer c d)).
      * unfold merged. rewrite (tableOf_cons _ _ l k Hca), (applyPeer_remove _ _ d k Hc), Hkey.
        destruct (Key_eqb (PeerConfig.PublicKey ca) k) eqn:Hck; [|reflexivity].
        apply Key_eqb_eq in Hck. subst k. rewrite Har, Hal. reflexivity.
      * intros k' Hk'. rewrite (applyPeer_remove _ _ d k' Hc), Hkey.
        destruct (Key_eqb (PeerConfig.PublicKey ca) k') eqn:Hck; [|apply Hd'; exact Hk'].
        apply Key_eqb_eq in Hck. subst k'. contradiction.
    + apply compare_Gt_ltb in Hcmp.
      apply encodeOps_cons in Hes. destruct Hes as (c & es' & -> & Hc & Hes').
      simpl in Hc. assert (c = cb) by congruence. subst c.
      assert (Hbr : tableOf r (PeerConfig.PublicKey cb) = None)
        by apply (fresh_above _ _ _ Ib Ir' Hcb Hb).
      assert (Hbl : tableOf (a :: l) (PeerConfig.PublicKey cb) = None).
      { apply (fresh_above _ _ _ Ib Il Hcb). apply above_cons; assumption. }
      simpl applyPeers.
      rewrite (IHr Il Ir' Hl Hr' es' Hes' (applyPeer cb d)).
      * unfold merged. rewrite (tableOf_cons _ _ r k Hcb), (applyPeer_add _ _ d k Hcb).
        destruct (Key_eqb (PeerConfig.PublicKey cb) k) eqn:Hck; [|reflexivity].
        apply Key_eqb_eq in Hck. subst k. rewrite Hbr, Hbl. reflexivity.
      * intros k' Hk'. rewrite (applyPeer_add _ _ d k' Hcb).
        destruct (Key_eqb (PeerConfig.PublicKey cb) k') eqn:Hck; [|apply Hd; exact Hk'].
        apply Key_eqb_eq in Hck. subst k'. contradiction.
Qed.
End Apply.

Lemma encodeOps_Forall2 (ops : list Op) (es : list PeerConfig.t) :
  encodeOps ops = inr es -> Forall2 (fun c op => encodeOp op = inr c) es ops.
Proof.
  revert es. induction ops as [|op ops IH]; intros es H.
  - inversion H. constructor.
  - apply encodeOps_cons in H. destruct H as (c & es' & -> & Hc & Hes').
    constructor; auto.
Qed.

Lemma encodeOps_ok (ops : list Op) :
  Forall (fun op => isOk (encodeOp op) = true) ops -> exists es, encodeOps ops = inr es.
Proof.
  induction 1 as [|op ops Hop Hops [es IH]]; simpl; [eauto|].
  destruct (encodeOp op) as [e|c]; [discriminate|]. rewrite IH. eauto.
Qed.

Lemma encodeOp_key (op : Op) (c : PeerConfig.t) :
  encodeOp op = inr c -> ParseKey (opKey op) = inr (PeerConfig.PublicKey c).
Proof.
  destruct op as [p|p]; simpl; intros H.
  - apply addPeer_inv in H. tauto.
  - apply deletePeer_inv in H. tauto.
Qed.

Lemma encodeOp_diffEntry (op : Op) (c : PeerConfig.t) :
  encodeOp op = inr c -> diffEntry c.
Proof.
  destruct op as [p|p]; simpl; intros H.
  - apply addPeer_inv in H. right. tauto.
  - apply deletePeer_inv in H. left. tauto.
Qed.

Lemma sameKey_spec (s t : string) (k : Key) :
  ParseKey s = inr k -> ParseKey t = inr k -> sameKey s t = true.
Proof. intros Hs Ht. unfold sameKey. rewrite Hs, Ht. apply Key_eqb_refl. Qed.

Lemma distinctKeys_injectiveOn (universe : list WireguardPeer.t) :
  distinctKeys (keysOf universe) = true -> injectiveOn universe.
Proof.
  unfold distinctKeys. rewrite forallb_forall. intros H p q k Hp Hq Hpk Hqk.
  assert (Ip : In (WireguardPeer.PublicKey p) (keysOf universe)) by (apply in_map; exact Hp).
  assert (Iq : In (WireguardPeer.PublicKey q) (keysOf universe)) by (apply in_map; exact Hq).
  specialize (H _ Ip). rewrite forallb_forall in H. specialize (H _ Iq).
  rewrite (sameKey_spec _ _ _ Hpk Hqk) in H. simpl in H.
  apply String.eqb_eq. exact H.
Qed.

Lemma tableOf_agrees (peers : list WireguardPeer.t) : agrees (tableOf peers) peers.
Proof. intros k _. reflexivity. Qed.

Lemma merged_tableOf (existing spec : list WireguardPeer.t) (k : Key) :
  merged existing spec (tableOf existing) k = tableOf spec k.
Proof.
  unfold merged. destruct (tableOf spec k); [reflexivity|].
  destruct (tableOf existing k); reflexivity.
Qed.

Lemma Encode_ok (spec existing : WireguardSpec.t) :
encodable spec existing = true ->
exists privateKey es,
  encodeOps (diffPeers (WireguardSpec.Peers existing) (WireguardSpec.Peers spec)) = inr es
  /\ Encode spec existing
     = inr {| Config.PrivateKey := privateKey;
              Config.ListenPort :=
                if negb (Z.eqb (WireguardSpec.ListenPort existing)
                           (WireguardSpec.ListenPort spec))
                then Some (WireguardSpec.ListenPort spec) else None;
              Config.FirewallMark :=
                if negb (Z.eqb (WireguardSpec.FirewallMark existing)
                           (WireguardSpec.FirewallMark spec))
                then Some (WireguardSpec.FirewallMark spec) else None;
              Config.ReplacePeers := false;
              Config.Peers := es |}.
Proof.
intros Henc.
unfold encodable in Henc. apply andb_true_iff in Henc. destruct Henc as [Hpriv Hok].
rewrite forallb_forall in Hok.
set (l := WireguardSpec.Peers existing) in *.
set (r := WireguardSpec.Peers spec) in *.
assert (Hops : Forall (fun op => isOk (encodeOp op) = true) (diffPeers l r)).
{ eapply Forall_impl; [|apply diffPeers_from]. intros [p|p]; simpl; intros Hp.
  - apply Hok. apply in_or_app. right. exact Hp.
  - assert (Hp' : isOk (addPeer p) = true) by (apply Hok; apply in_or_app; left; exact Hp).
    destruct (addPeer p) as [e|c] eqn:Hc; [discriminate|].
    destruct (addPeer_deletePeer _ _ Hc) as [c' Hc']. rewrite Hc'. reflexivity. }
destruct (encodeOps_ok _ Hops) as [es Hes].
assert (Hmerge : mergePeers l r [] = inr es).
{ rewrite mergePeers_encodeOps, Hes. reflexivity. }
unfold Encode. cbn. fold l r. rewrite Hmerge.
destruct (String.eqb (WireguardSpec.PrivateKey existing) (WireguardSpec.PrivateKey spec));
  simpl in *.
- eexists; eexists; split; [exact Hes | reflexivity].
- destruct (ParseKey (WireguardSpec.PrivateKey spec)); [discriminate|].
  eexists; eexists; split; [exact Hes | reflexivity].
Qed.

(** Claim C5.  Whenever [Encode] returns a patch, the patch carries
  [ListenPort] exactly when the desired port differs from the existing
  one, and then it carries the desired port, 0 included; the same holds
  for [FirewallMark].  [Encode] does return a patch whenever every
  string it has to parse is well-formed. *)
Theorem Encode_port_and_mark (spec existing : WireguardSpec.t) :
(forall cfg, Encode spec existing = inr cfg ->
   Config.ListenPort cfg
   = (if Z.eqb (WireguardSpec.ListenPort spec) (WireguardSpec.ListenPort existing)
      then None else Some (WireguardSpec.ListenPort spec))
   /\ Config.FirewallMark cfg
      = (if Z.eqb (WireguardSpec.FirewallMark spec) (WireguardSpec.FirewallMark existing)
         then None else Some (WireguardSpec.FirewallMark spec)))
/\ (encodable spec existing = true -> exists cfg, Encode spec existing = inr cfg).
Proof.
split.
- intros cfg H. unfold Encode in H. cbn in H.
  destruct (if negb (String.eqb (WireguardSpec.PrivateKey existing)
                       (WireguardSpec.PrivateKey spec))
            then match ParseKey (WireguardSpec.PrivateKey spec) with
                 | inl e => inl e | inr key => inr (Some key) end
            else inr None) as [e|pk]; [discriminate|].
  destruct (mergePeers _ _ _) as [e|es]; [discriminate|].
  inversion H; subst; clear H. cbn.
  rewrite (Z.eqb_sym (WireguardSpec.ListenPort spec)),
          (Z.eqb_sym (WireguardSpec.FirewallMark spec)).
  destruct (Z.eqb (WireguardSpec.ListenPort existing) (WireguardSpec.ListenPort spec));
    destruct (Z.eqb (WireguardSpec.FirewallMark existing) (WireguardSpec.FirewallMark spec));
    split; reflexivity.
- intros Henc. destruct (Encode_ok _ _ Henc) as (pk & es & _ & H). eauto.
Qed.

(** Claim C9.  For every device state, [Decode] gives the spec one peer
  per device peer, in order, each decoded so that an all-zero preshared
  key becomes the empty string, any other key its text, an absent
  endpoint stays empty and a present one is copied as text; with
  [isStatus] the device's public key goes to [PublicKey] and the private
  key field is left alone, without it the device's private key goes to
  [PrivateKey] and the public key field is left alone. *)
Theorem Decode_device (spec : WireguardSpec.t) (dev : Device.t) (isStatus : bool) :
let decoded := Decode spec dev isStatus in
Forall2 decodedAs (Device.Peers dev) (WireguardSpec.Peers decoded)
/\ (if isStatus
    then WireguardSpec.PublicKey decoded = KeyString (Device.PublicKey dev)
         /\ WireguardSpec.PrivateKey decoded = WireguardSpec.PrivateKey spec
    else WireguardSpec.PrivateKey decoded = KeyString (Device.PrivateKey dev)
         /\ WireguardSpec.PublicKey decoded = WireguardSpec.PublicKey spec)
/\ WireguardSpec.ListenPort decoded = Device.ListenPort dev
/\ WireguardSpec.FirewallMark decoded = Device.FirewallMark dev.
Proof.
cbn -[zeroKey Key_eqb decodePeer].
split; [|split; [destruct isStatus; split; reflexivity | split; reflexivity]].
induction (Device.Peers dev) as [|p peers IH]; simpl; constructor; [|exact IH].
unfold decodedAs, decodePeer. cbn -[zeroKey Key_eqb].
destruct (Key_eqb (Peer.PresharedKey p) zeroKey) eqn:Hk; cbn [negb].
- apply Key_eqb_eq in Hk.
  repeat split; try reflexivity; intros; try contradiction.
  + rewrite H. reflexivity.
  + rewrite H. reflexivity.
- assert (Hne : Peer.PresharedKey p <> zeroKey).
  { intros E. apply Key_eqb_eq in E. congruence. }
  repeat split; try reflexivity; intros; try contradiction.
  + rewrite H. reflexivity.
  + rewrite H. reflexivity.
Qed.

End Proofs.

(** ** The per-item sync and the cycle *)

Section SyncProofs.
Context {ext : Externals}.

Section Client.
Variable wgClient : option unit.

Lemma run_exec (A W : Type) (h : Handler W) (p : Prog A) (w : W) :
  exec p (snd (run h p w)) (fst (fst (run h p w))).
Proof.
  revert w. induction p as [a|X e k IH]; intros w; simpl.
  - split; reflexivity.
  - destruct (h X e w) as [x w1] eqn:Hh.
    specialize (IH x w1). destruct (run h (k x) w1) as [[a w2] t]. simpl in *.
    exists x, t. split; [reflexivity | exact IH].
Qed.

(** Claim C10.  The sync of a TearingDown item whose spec is not logical
  makes exactly one call, the removal of the finalizer: no kernel link
  is listed, created, deleted or modified.  It hands the snapshot back
  unchanged and returns no error once the store has accepted the
  removal; the error of a refused removal is the only one possible. *)
Theorem tearDown_physical_frame (links : list KernelLink.t) (link : LinkSpec.t)
    (t : list Call) (out : Returned) :
  Metadata.Phase_ (LinkSpec.Metadata_ link) = PhaseTearingDown ->
  LinkSpecSpec.Logical (LinkSpec.TypedSpec link) = false ->
  exec (syncLink wgClient links link) t out ->
  exists r,
    t = [call (RemoveFinalizer (LinkSpec.Metadata_ link) ctrlName) r]
    /\ fst out = links
    /\ (r = None -> snd out = None)
    /\ (forall err, r = Some err ->
          snd out = Some (errorf "error removing finalizer: %w" [] (Some err))).
Proof.
  intros Hphase Hlog H. unfold syncLink in H. rewrite Hphase in H.
  unfold tearDown in H. rewrite Hlog in H. unfold removeFinalizer in H.
  exec_inv H; eexists; (split; [reflexivity|]); simpl;
    (split; [reflexivity|]); split; intros; congruence.
Qed.

(** Claim C7.  The sync of a TearingDown item that is not logical, or
  has no link of its name in the snapshot, skips the delete: its only
  call is the removal of the finalizer, the snapshot is handed back
  unchanged and, the removal accepted, no error is returned.  When the
  item is logical and the snapshot has its link, the link is deleted
  first, then the links are listed again, and only then is the
  finalizer removed, the sync handing back the new listing; an error of
  the delete or of the listing ends the sync before the removal. *)
Theorem tearDown_finalizer (links : list KernelLink.t) (link : LinkSpec.t)
  (t : list Call) (out : Returned) :
Metadata.Phase_ (LinkSpec.Metadata_ link) = PhaseTearingDown ->
exec (syncLink wgClient links link) t out ->
let spec := LinkSpec.TypedSpec link in
let removal := RemoveFinalizer (LinkSpec.Metadata_ link) ctrlName in
match (if LinkSpecSpec.Logical spec then FindLink links (LinkSpecSpec.Name spec)
       else None) with
| None =>
    exists r, t = [call removal r]
              /\ fst out = links
              /\ (r = None -> snd out = None)
| Some (_, existing) =>
    exists r t',
      t = call (LinkDelete (KernelLink.Index existing)) r :: t'
      /\ (forall err, r = Some err -> t' = [] /\ fst out = links /\ snd out <> None)
      /\ (r = None ->
          exists links' e t'',
            t' = call LinkList (links', e) :: t''
            /\ (forall err, e = Some err ->
                  t'' = [] /\ fst out = links' /\ snd out <> None)
            /\ (e = None ->
                exists r', t'' = [call removal r']
                           /\ fst out = links'
                           /\ (r' = None -> snd out = None)))
end.
Proof.
intros Hphase H spec removal. subst spec removal.
unfold syncLink in H. rewrite Hphase in H.
unfold tearDown, removeFinalizer in H.
destruct (LinkSpecSpec.Logical (LinkSpec.TypedSpec link)).
- destruct (FindLink links _) as [[i existing]|].
  + exec_inv H.
    all: eexists; eexists; (split; [reflexivity|]); split;
      [intros err' Herr'; try discriminate; simpl; repeat split; congruence|].
    all: intros Hr; try discriminate.
    all: eexists; eexists; eexists; (split; [reflexivity|]); split;
      [intros err' Herr'; try discriminate; simpl; repeat split; congruence|].
    all: intros He;
      first [ discriminate He
            | eexists; (split; [reflexivity|]);
              (split; [reflexivity | intros Hr'; first [reflexivity | discriminate]]) ].
  + exec_inv H; eexists; (split; [reflexivity|]);
      (split; [reflexivity | intros Hr'; first [reflexivity | discriminate]]).
- exec_inv H; eexists; (split; [reflexivity|]);
    (split; [reflexivity | intros Hr'; first [reflexivity | discriminate]]).
Qed.

(** Claim C2, amended.  The sync of a Running logical item whose kernel
  link carries type metadata and reports another type code or kind than
  the spec starts by deleting that link: no call precedes the delete, in
  particular no in-place modification.  A failed delete ends the sync
  with its error.  After a successful delete the link is created again
  when the kind is wireguard; for any other kind the sync ends there,
  without a create and without an error. *)
Theorem replace_mismatched_link (links : list KernelLink.t) (link : LinkSpec.t)
    (i : nat) (existing : KernelLink.t) (info : LinkInfo.t)
    (t : list Call) (out : Returned) :
  let spec := LinkSpec.TypedSpec link in
  Metadata.Phase_ (LinkSpec.Metadata_ link) = PhaseRunning ->
  LinkSpecSpec.Logical spec = true ->
  FindLink links (LinkSpecSpec.Name spec) = Some (i, existing) ->
  LinkAttributes.Info (KernelLink.Attributes existing) = Some info ->
  mismatched existing info spec = true ->
  exec (syncLink wgClient links link) t out ->
  exists r t',
    t = call (LinkDelete (KernelLink.Index existing)) r :: t'
    /\ (forall err, r = Some err ->
          t' = []
          /\ out = (links, Some (errorf "error deleting link %q: %w"
                                   [LinkSpecSpec.Name spec] (Some err))))
    /\ (r = None ->
        if String.eqb (LinkSpecSpec.Kind spec) LinkKindWireguard
        then exists r' t'', t' = call (LinkNew (newLinkMessage spec)) r' :: t''
        else t' = [] /\ out = (links, None)).
Proof.
  intros spec Hphase Hlog Hfind Hinfo Hmis H. subst spec.
  running_inv H Hphase.
  rewrite Hfind, Hlog, Hinfo, Hmis in H.
  cbv [bind ret Monad_Prog trigger andThen] in H; cbn [bindProg exec] in H.
  destruct H as (r & t' & -> & H). exists r, t'. split; [reflexivity|].
  destruct r as [err|].
  - exec_inv H. split; [|discriminate].
    intros err' Herr'. inversion Herr'; subst. split; reflexivity.
  - split; [discriminate|]. intros _.
    cbv [bind ret Monad_Prog trigger andThen] in H; cbn [bindProg negb] in H.
    destruct (String.eqb (LinkSpecSpec.Kind (LinkSpec.TypedSpec link)) LinkKindWireguard)
      eqn:Hkind.
    + cbn [negb bindProg exec] in H.
      destruct H as (r' & t'' & -> & H). exists r', t''. reflexivity.
    + exec_inv H; split; reflexivity.
Qed.

(** Claim C3, amended.  In every sync, a successful create is followed
  at once by a fresh listing of the kernel links, and so is a successful
  delete of a TearingDown item.  The delete that replaces a mismatched
  link of a Running item is not listed after: for the wireguard kind
  the create follows it at once, and the listing after the create
  covers both.  The snapshot the sync hands back is the last listing it
  made, or the one it was given if it made none, up to the MTU it may
  have written into one entry. *)
Theorem snapshot_refreshed (links : list KernelLink.t) (link : LinkSpec.t)
    (t : list Call) (out : Returned) :
  exec (syncLink wgClient links link) t out ->
  eachFollowedBy createdLink isLinkList t = true
  /\ (Metadata.Phase_ (LinkSpec.Metadata_ link) = PhaseTearingDown ->
      eachFollowedBy deletedLink isLinkList t = true)
  /\ (Metadata.Phase_ (LinkSpec.Metadata_ link) = PhaseRunning ->
      String.eqb (LinkSpecSpec.Kind (LinkSpec.TypedSpec link)) LinkKindWireguard = true ->
      eachFollowedBy deletedLink isLinkNew t = true)
  /\ sameButMTU (fst out) (current t links).
Proof.
  intros H. unfold syncLink in H.
  destruct (Metadata.Phase_ (LinkSpec.Metadata_ link)) eqn:Hphase.
  - unfold running, replaceMismatched, createMissing, syncSettings,
      syncWireguard, syncUp, syncMTU in H.
    exec_inv H.
    all: split; [reflexivity|]; split; [discriminate|]; split;
      [intros _ Hk; first [reflexivity | congruence]|].
    all: first [left; reflexivity | right; eexists; eexists; reflexivity].
  - unfold tearDown, removeFinalizer in H.
    exec_inv H.
    all: split; [reflexivity|]; split; [reflexivity|]; split; [discriminate|].
    all: left; reflexivity.
Qed.

Lemma FindLink_setMTU (links : list KernelLink.t) (name : string) (i : nat)
    (existing : KernelLink.t) (mtu : Z) :
  FindLink links name = Some (i, existing) ->
  exists existing',
    FindLink (setMTU links i mtu) name = Some (i, existing')
    /\ LinkAttributes.MTU (KernelLink.Attributes existing') = mtu
    /\ KernelLink.Index existing' = KernelLink.Index existing.
Proof.
  revert i. induction links as [|l links IH]; intros i H; [discriminate|].
  simpl in H.
  destruct (String.eqb (LinkAttributes.Name (KernelLink.Attributes l)) name) eqn:Hn.
  - inversion H; subst. simpl. rewrite Hn. eexists. split; [reflexivity|]. split; reflexivity.
  - destruct (FindLink links name) as [[j found]|] eqn:Hf; [|discriminate].
    inversion H; subst. destruct (IH j eq_refl) as (e' & He' & Hm & Hi).
    simpl. rewrite Hn, He'. eauto.
Qed.

(** Claim C6, amended.  Whatever the item, an MTU modification is issued
  only by the sync of a Running item, only for the link the snapshot in
  force resolves the name to, only with the desired MTU, and only if
  that MTU is non-zero and differs from the one the snapshot reports;
  when the modification succeeds the sync returns with the snapshot's
  MTU set to the desired value, and a desired MTU of 0 never produces a
  modification.  The MTU step itself, once the sync reaches it with a
  resolved link, issues the modification if and only if the desired MTU
  is non-zero and differs; the settings part of a sync that returns no
  error has issued it exactly in that case; and in the updated snapshot
  the link reports the desired MTU. *)
Theorem mtu_modification (links : list KernelLink.t) (link : LinkSpec.t) :
  let spec := LinkSpec.TypedSpec link in
  (forall t out, exec (syncLink wgClient links link) t out ->
     (forall req r, In (req, r) (mtuSets t) ->
        Metadata.Phase_ (LinkSpec.Metadata_ link) = PhaseRunning
        /\ exists i existing,
             FindLink (current t links) (LinkSpecSpec.Name spec) = Some (i, existing)
             /\ req = mtuMessage existing (LinkSpecSpec.MTU spec)
             /\ mtuDiffers existing spec = true
             /\ (r = None ->
                 out = (setMTU (current t links) i (LinkSpecSpec.MTU spec), None)))
     /\ (LinkSpecSpec.MTU spec = 0%Z -> mtuSets t = []))
  /\ (forall i existing t out,
        exec (syncMTU links link (i, existing)) t out ->
        if mtuDiffers existing spec
        then exists r,
               t = [call (LinkSet (mtuMessage existing (LinkSpecSpec.MTU spec))) r]
               /\ (r = None -> out = (setMTU links i (LinkSpecSpec.MTU spec), None))
               /\ (forall err, r = Some err -> fst out = links /\ snd out <> None)
        else t = [] /\ out = (links, None))
  /\ (forall found t out,
        exec (syncSettings wgClient links link found) t out ->
        snd out = None ->
        (mtuDiffers (snd found) spec = true <-> mtuSets t <> []))
  /\ (forall i existing,
        FindLink links (LinkSpecSpec.Name spec) = Some (i, existing) ->
        exists existing',
          FindLink (setMTU links i (LinkSpecSpec.MTU spec)) (LinkSpecSpec.Name spec)
          = Some (i, existing')
          /\ LinkAttributes.MTU (KernelLink.Attributes existing') = LinkSpecSpec.MTU spec).
Proof.
  intros spec. subst spec. split; [|split; [|split]].
  - intros t out H. unfold syncLink in H.
    destruct (Metadata.Phase_ (LinkSpec.Metadata_ link)) eqn:Hphase.
    + unfold running, replaceMismatched, createMissing, syncSettings,
        syncWireguard, syncUp, syncMTU in H.
      exec_inv H.
      all: split;
        [ intros req r Hin; cbn in Hin;
          try (destruct Hin as [Hin|[]]; inversion Hin; subst; clear Hin;
               split; [reflexivity|];
               eexists; eexists; cbn [current listed fst];
               split; [eassumption|]; split; [reflexivity|]; split; [assumption|];
               intros Hr; first [reflexivity | discriminate Hr]);
          try contradiction
        | intros Hm; cbn;
          try reflexivity;
          match goal with
          | Hd : mtuDiffers _ _ = true |- _ =>
              unfold mtuDiffers in Hd; rewrite Hm in Hd; discriminate Hd
          end ].
    + unfold tearDown, removeFinalizer in H.
      exec_inv H.
      all: split; [intros req r Hin; cbn in Hin; contradiction | intros _; reflexivity].
  - intros i existing t out H. unfold syncMTU in H.
    destruct (mtuDiffers existing (LinkSpec.TypedSpec link)).
    + exec_inv H; eexists; (split; [reflexivity|]); split;
        intros; try discriminate; try reflexivity.
      split; [reflexivity | discriminate].
    + exec_inv H. split; reflexivity.
  - intros found t out H Hout.
    unfold syncSettings, syncWireguard, syncUp, syncMTU in H.
    exec_inv H; cbn in Hout; try discriminate Hout; cbn [snd mtuSets];
      split; intros Hx; first [assumption | discriminate | congruence | (exfalso; apply Hx; reflexivity)].
  - intros i existing Hf.
    destruct (FindLink_setMTU _ _ _ _ (LinkSpecSpec.MTU (LinkSpec.TypedSpec link)) Hf)
      as (e' & He' & Hm & _).
    eauto.
Qed.

Lemma exec_bind (A B : Type) (p : Prog A) (f : A -> Prog B) (t : list Call) (b : B) :
  exec (bindProg p f) t b ->
  exists a t1 t2, exec p t1 a /\ exec (f a) t2 b /\ t = t1 ++ t2.
Proof.
  revert t. induction p as [a|X e k IH]; intros t H; simpl in H.
  - exists a, [], t. split; [split; reflexivity|]. split; [exact H | reflexivity].
  - destruct H as (x & t' & -> & H).
    destruct (IH x t' H) as (a & t1 & t2 & H1 & H2 & ->).
    exists a, (call e x :: t1), t2. split; [|split; [exact H2 | reflexivity]].
    simpl. exists x, t1. split; [reflexivity | exact H1].
Qed.

Lemma syncItems_runs (items : list LinkSpec.t) :
  forall links multiErr t out,
    exec (syncItems wgClient items links multiErr) t out ->
    exists runs,
      syncedInOrder wgClient links items runs
      /\ t = concat (map fst runs)
      /\ snd out = multiErr ++ errorsOf runs.
Proof.
  induction items as [|link rest IH]; intros links multiErr t out H.
  - simpl in H. cbv [ret Monad_Prog] in H. simpl in H. destruct H as [-> ->].
    exists []. split; [constructor|]. split; [reflexivity|].
    simpl. rewrite app_nil_r. reflexivity.
  - simpl in H. cbv [bind Monad_Prog] in H.
    apply exec_bind in H. destruct H as ([links' err] & t1 & t2 & H1 & H2 & ->).
    destruct err as [err|].
    + destruct (IH _ _ _ _ H2) as (runs & Hruns & -> & Hout).
      exists ((t1, (links', Some err)) :: runs).
      split; [econstructor; [exact H1 | exact Hruns]|].
      split; [reflexivity|].
      rewrite Hout. unfold errorsOf. simpl. rewrite <- app_assoc. reflexivity.
    + destruct (IH _ _ _ _ H2) as (runs & Hruns & -> & Hout).
      exists ((t1, (links', None)) :: runs).
      split; [econstructor; [exact H1 | exact Hruns]|].
      split; [reflexivity|].
      rewrite Hout. reflexivity.
Qed.

Lemma syncedInOrder_length (links : list KernelLink.t) (items : list LinkSpec.t)
    (runs : list (list Call * Returned)) :
  syncedInOrder wgClient links items runs -> length runs = length items.
Proof. induction 1; simpl; congruence. Qed.

Lemma syncLink_no_reset (links : list KernelLink.t) (link : LinkSpec.t)
    (t : list Call) (out : Returned) :
  exec (syncLink wgClient links link) t out ->
  existsb isResetRestartBackoff t = false.
Proof.
  intros H. unfold syncLink in H.
  destruct (Metadata.Phase_ (LinkSpec.Metadata_ link)).
  - unfold running, replaceMismatched, createMissing, syncSettings,
      syncWireguard, syncUp, syncMTU in H.
    exec_inv H; reflexivity.
  - unfold tearDown, removeFinalizer in H. exec_inv H; reflexivity.
Qed.

Lemma syncedInOrder_no_reset (links : list KernelLink.t) (items : list LinkSpec.t)
    (runs : list (list Call * Returned)) :
  syncedInOrder wgClient links items runs ->
  existsb isResetRestartBackoff (concat (map fst runs)) = false.
Proof.
  induction 1 as [|links link rest t out runs Hexec Hruns IH]; [reflexivity|].
  simpl. rewrite existsb_app, IH, (syncLink_no_reset _ _ _ _ Hexec). reflexivity.
Qed.

(** Claim C4.  For every list of items, the reconcile part of a cycle
  runs the per-item sync once for every item, in list order, each on the
  snapshot the previous one left, whether or not earlier items failed.
  The errors of the runs are collected in order; with at least one
  error the aggregate of all of them is returned after the last run and
  the backoff is not reset; with none the backoff reset is the last
  call and no error is returned. *)
Theorem reconcile_aggregates (items : list LinkSpec.t) (links : list KernelLink.t)
    (t : list Call) (out : option error) :
  exec (reconcile wgClient items links) t out ->
  exists runs,
    syncedInOrder wgClient links items runs
    /\ length runs = length items
    /\ match errorsOf runs with
       | [] => t = concat (map fst runs) ++ [call ResetRestartBackoff tt] /\ out = None
       | err :: errs =>
           t = concat (map fst runs)
           /\ existsb isResetRestartBackoff t = false
           /\ out = Some (multiError (err :: errs))
       end.
Proof.
  intros H. unfold reconcile in H. cbv [bind Monad_Prog] in H.
  apply exec_bind in H. destruct H as ([links' multiErr] & t1 & t2 & H1 & H2 & ->).
  destruct (syncItems_runs _ _ _ _ _ H1) as (runs & Hruns & -> & Hout).
  simpl in Hout. subst multiErr.
  exists runs. split; [exact Hruns|]. split; [apply (syncedInOrder_length _ _ _ Hruns)|].
  unfold finishCycle in H2.
  destruct (errorsOf runs) as [|err errs].
  - exec_inv H2. destruct x. split; reflexivity.
  - exec_inv H2. rewrite app_nil_r.
    split; [reflexivity|]. split; [apply (syncedInOrder_no_reset _ _ _ Hruns) | reflexivity].
Qed.

Lemma cycle_reconcile (t : list Call) (out : option error) :
  exec (cycle wgClient) t out ->
  (exists e, t = [call StoreList (inl e)] /\ out <> None)
  \/ (exists items tfin,
        (exists err, t = call StoreList (inr items) :: tfin
                     /\ exec (addFinalizers items) tfin (Some err) /\ out = Some err)
        \/ (exists links,
              exec (addFinalizers items) tfin None
              /\ ((exists e, t = call StoreList (inr items) :: tfin
                                 ++ [call LinkList (links, Some e)] /\ out <> None)
                  \/ (exists t', t = call StoreList (inr items) :: tfin
                                     ++ call LinkList (links, None) :: t'
                                  /\ exec (reconcile wgClient items links) t' out)))).
Proof.
  intros H. unfold cycle in H. cbv [bind Monad_Prog trigger] in H. cbn [bindProg exec] in H.
  destruct H as (x & t' & -> & H). destruct x as [e|items].
  - left. exists e. cbv [ret Monad_Prog] in H. destruct H as [-> ->].
    split; [reflexivity | discriminate].
  - right. exists items.
    apply exec_bind in H. destruct H as (err & tfin & t2 & Hfin & H & ->).
    exists tfin. destruct err as [err|].
    + left. exists err. cbv [ret Monad_Prog] in H. destruct H as [-> ->].
      rewrite app_nil_r. auto.
    + right. cbn [bindProg exec] in H. destruct H as ([links e] & t3 & -> & H).
      exists links. split; [exact Hfin|]. destruct e as [e|].
      * left. exists e. cbv [ret Monad_Prog] in H. destruct H as [-> ->].
        split; [reflexivity | discriminate].
      * right. exists t3. split; [reflexivity | exact H].
Qed.

End Client.

End SyncProofs.

(** * Further properties *)

(** ** Further properties of the codec *)

Section CodecMore.
Context {ext : Externals}.

Lemma peerEqual_refl (p : WireguardPeer.t) : peerEqual p p = true.
Proof. apply peerEqual_eq. reflexivity. Qed.

Lemma compare_refl (s : string) : String.compare s s = Eq.
Proof. apply String_as_OT.cmp_eq. reflexivity. Qed.

Lemma mergePeers_same (peers : list WireguardPeer.t) (acc : list PeerConfig.t) :
  mergePeers peers peers acc = inr acc.
Proof.
  induction peers as [|p peers IH]; rewrite mergePeers_cases; [reflexivity|].
  rewrite compare_refl, peerEqual_refl. exact IH.
Qed.

(** Property X2.  [Encode] of a spec against itself returns the empty
    patch, whatever the spec: no field is set, no peer entry is emitted
    and no string is parsed, so it cannot fail. *)
Theorem Encode_same_spec (spec : WireguardSpec.t) :
  Encode spec spec = inr emptyConfig.
Proof.
  unfold Encode. cbn.
  rewrite String.eqb_refl, !Z.eqb_refl, mergePeers_same. reflexivity.
Qed.

(** Property X3.  An unchanged private key is never put in the patch.
    A changed one is parsed first: if it does not
    parse, [Encode] returns the parser's error whatever the peers are,
    and if it parses every patch [Encode] returns carries the parsed
    key. *)
Theorem Encode_private_key (spec existing : WireguardSpec.t) :
  if String.eqb (WireguardSpec.PrivateKey existing) (WireguardSpec.PrivateKey spec)
  then forall cfg, Encode spec existing = inr cfg -> Config.PrivateKey cfg = None
  else match ParseKey (WireguardSpec.PrivateKey spec) with
       | inl err => Encode spec existing = inl err
       | inr key =>
           forall cfg, Encode spec existing = inr cfg -> Config.PrivateKey cfg = Some key
       end.
Proof.
  unfold Encode. cbn.
  destruct (String.eqb (WireguardSpec.PrivateKey existing) (WireguardSpec.PrivateKey spec)); cbn.
  - intros cfg H. destruct (mergePeers _ _ _); [discriminate|]. inversion H. reflexivity.
  - destruct (ParseKey (WireguardSpec.PrivateKey spec)) as [err|key]; [reflexivity|].
    intros cfg H. destruct (mergePeers _ _ _); [discriminate|]. inversion H. reflexivity.
Qed.

Lemma Encode_peers (spec existing : WireguardSpec.t) (cfg : Config.t) :
  Encode spec existing = inr cfg ->
  encodeOps (diffPeers (WireguardSpec.Peers existing) (WireguardSpec.Peers spec))
  = inr (Config.Peers cfg).
Proof.
  unfold Encode. cbn.
  destruct (if negb (String.eqb (WireguardSpec.PrivateKey existing)
                       (WireguardSpec.PrivateKey spec))
            then match ParseKey (WireguardSpec.PrivateKey spec) with
                 | inl e => inl e | inr key => inr (Some key) end
            else inr None) as [e|pk]; [discriminate|].
  rewrite mergePeers_encodeOps.
  destruct (encodeOps _) as [e|es]; [discriminate|].
  intros H. inversion H. reflexivity.
Qed.

Lemma diffPeers_bound (existing spec : list WireguardPeer.t) :
  (length (diffPeers existing spec) <= length existing + length spec)%nat.
Proof.
  revert spec.
  induction existing as [|a l IHl]; intros spec;
    induction spec as [|b r IHr]; rewrite diffPeers_cases; simpl.
  - lia.
  - simpl in IHr. lia.
  - specialize (IHl []). simpl in IHl. lia.
  - destruct (String.compare _ _).
    + destruct (peerEqual a b); simpl; specialize (IHl r); lia.
    + simpl. specialize (IHl (b :: r)). simpl in IHl. lia.
    + simpl. simpl in IHr. lia.
Qed.

(** Property X4.  Whatever the two peer lists, sorted or not, every
    entry of a patch [Encode] returns is the remove-entry of a peer of
    [existing] or the add/replace entry of a peer of the desired spec,
    and there are at most as many entries as the two lists have peers. *)
Theorem Encode_entries_from (spec existing : WireguardSpec.t) (cfg : Config.t) :
  Encode spec existing = inr cfg ->
  Forall (fun c =>
            (exists p, In p (WireguardSpec.Peers existing) /\ deletePeer p = inr c)
            \/ (exists p, In p (WireguardSpec.Peers spec) /\ addPeer p = inr c))
    (Config.Peers cfg)
  /\ (length (Config.Peers cfg)
      <= length (WireguardSpec.Peers existing) + length (WireguardSpec.Peers spec))%nat.
Proof.
  intros H. apply Encode_peers in H.
  pose proof (encodeOps_Forall2 _ _ H) as HF.
  pose proof (diffPeers_from (WireguardSpec.Peers existing) (WireguardSpec.Peers spec)) as Hfrom.
  pose proof (diffPeers_bound (WireguardSpec.Peers existing) (WireguardSpec.Peers spec)) as Hb.
  split.
  - clear H Hb. induction HF as [|c op es ops Hc HF IH]; constructor.
    + inversion Hfrom as [|? ? Hop _]; subst.
      destruct op as [p|p]; simpl in *; eauto.
    + apply IH. inversion Hfrom; assumption.
  - assert (Hlen : length (Config.Peers cfg)
                   = length (diffPeers (WireguardSpec.Peers existing) (WireguardSpec.Peers spec))).
    { clear -HF. induction HF; simpl; congruence. }
    lia.
Qed.

Lemma diffPeers_nil_l (spec : list WireguardPeer.t) : diffPeers [] spec = map OpAdd spec.
Proof.
  induction spec as [|b r IH]; rewrite diffPeers_cases; [reflexivity|].
  simpl. rewrite IH. reflexivity.
Qed.

Lemma diffPeers_nil_r (existing : list WireguardPeer.t) :
  diffPeers existing [] = map OpRemove existing.
Proof.
  induction existing as [|a l IH]; rewrite diffPeers_cases; [reflexivity|].
  simpl. rewrite IH. reflexivity.
Qed.

(** Property X5.  With no existing peer the patch has exactly one
    add/replace entry per desired peer, in the order of the list; with no
    desired peer it has exactly one remove-entry per existing peer, in
    order. *)
Theorem Encode_empty_side (spec existing : WireguardSpec.t) (cfg : Config.t) :
  Encode spec existing = inr cfg ->
  (WireguardSpec.Peers existing = [] ->
   Forall2 (fun p c => addPeer p = inr c) (WireguardSpec.Peers spec) (Config.Peers cfg))
  /\ (WireguardSpec.Peers spec = [] ->
      Forall2 (fun p c => deletePeer p = inr c)
        (WireguardSpec.Peers existing) (Config.Peers cfg)).
Proof.
  intros H. apply Encode_peers in H. split; intros E; rewrite E in H.
  - rewrite diffPeers_nil_l in H. apply encodeOps_Forall2 in H.
    revert H. generalize (Config.Peers cfg). 
    induction (WireguardSpec.Peers spec) as [|p ps IH]; intros es H;
      inversion H; subst; constructor; auto.
  - rewrite diffPeers_nil_r in H. apply encodeOps_Forall2 in H.
    revert H. generalize (Config.Peers cfg).
    induction (WireguardSpec.Peers existing) as [|p ps IH]; intros es H;
      inversion H; subst; constructor; auto.
Qed.

(** Property X6.  Decoding a device peer and encoding the result as an
    add/replace entry gives the device peer back, the all-zero preshared
    key as a nil pointer, provided the strings [Decode] writes for this
    peer read back as the values they were written from. *)
Theorem addPeer_decodePeer (p : Peer.t) :
  readsBack p -> addPeer (decodePeer p) = inr (entryOfPeer p).
Proof.
  intros (Hpub & Hpsk & Hend & Hips).
  unfold addPeer, decodePeer, entryOfPeer. cbn -[zeroKey Key_eqb].
  rewrite Hpub.
  assert (Hmap : map PrefixIPNet (map FromStdIPNet (Peer.AllowedIPs p)) = Peer.AllowedIPs p).
  { induction Hips as [|n ns Hn _ IH]; simpl; [reflexivity|]. rewrite Hn, IH. reflexivity. }
  rewrite Hmap.
  destruct (Key_eqb (Peer.PresharedKey p) zeroKey) eqn:Hk; cbn [negb].
  - destruct (Peer.Endpoint p) as [a|] eqn:He; cbn.
    + destruct (Hend a eq_refl) as [Hne Hres].
      apply String.eqb_neq in Hne. rewrite Hne, Hres. reflexivity.
    + reflexivity.
  - assert (Hnz : Peer.PresharedKey p <> zeroKey).
    { intros E. apply Key_eqb_eq in E. congruence. }
    destruct (Hpsk Hnz) as [Hne Hparse].
    apply String.eqb_neq in Hne. rewrite Hne, Hparse.
    destruct (Peer.Endpoint p) as [a|] eqn:He; cbn.
    + destruct (Hend a eq_refl) as [Hne' Hres].
      apply String.eqb_neq in Hne'. rewrite Hne', Hres. reflexivity.
    + reflexivity.
Qed.

End CodecMore.

(** ** Further properties of the lookup and of the sync *)

(** Property X1.  [FindLink] returns the first link of the snapshot that
    has the name: the link at the returned position has the name and no
    link before it has; it returns nil exactly when no link has the
    name. *)
Theorem FindLink_first (links : list KernelLink.t) (name : string) :
  match FindLink links name with
  | Some (i, found) =>
      nth_error links i = Some found
      /\ LinkAttributes.Name (KernelLink.Attributes found) = name
      /\ (forall j link, (j < i)%nat -> nth_error links j = Some link ->
            LinkAttributes.Name (KernelLink.Attributes link) <> name)
  | None =>
      forall link, In link links -> LinkAttributes.Name (KernelLink.Attributes link) <> name
  end.
Proof.
  induction links as [|l links IH]; simpl.
  - intros link [].
  - destruct (String.eqb (LinkAttributes.Name (KernelLink.Attributes l)) name) eqn:Hn.
    + apply String.eqb_eq in Hn. split; [reflexivity|]. split; [exact Hn|].
      intros j link Hj. lia.
    + apply String.eqb_neq in Hn.
      destruct (FindLink links name) as [[i found]|].
      * destruct IH as (Hnth & Hname & Hbefore).
        split; [exact Hnth|]. split; [exact Hname|].
        intros [|j] link Hj Hl; simpl in Hl.
        -- inversion Hl; subst. exact Hn.
        -- apply (Hbefore j link); [lia | exact Hl].
      * intros link [E|Hin]; [subst; exact Hn | apply IH; exact Hin].
Qed.

(** Property X14.  Writing an MTU into entry [i] of the snapshot keeps
    the number of links, their indices and every other entry, and every
    name resolves to the same position as before. *)
Theorem setMTU_keeps_lookup (links : list KernelLink.t) (i : nat) (mtu : Z) :
  length (setMTU links i mtu) = length links
  /\ map KernelLink.Index (setMTU links i mtu) = map KernelLink.Index links
  /\ (forall name,
        option_map fst (FindLink (setMTU links i mtu) name)
        = option_map fst (FindLink links name))
  /\ (forall j link, j <> i -> nth_error links j = Some link ->
        nth_error (setMTU links i mtu) j = Some link).
Proof.
  revert i. induction links as [|l links IH]; intros i.
  - destruct i; simpl; repeat split; auto.
  - destruct i as [|i].
    + simpl. split; [reflexivity|]. split; [reflexivity|]. split.
      * intros name. destruct (String.eqb _ name); reflexivity.
      * intros [|j] link Hj Hl; [congruence | exact Hl].
    + destruct (IH i) as (Hlen & Hidx & Hfind & Hnth).
      simpl. split; [congruence|]. split; [congruence|]. split.
      * intros name. destruct (String.eqb _ name); [reflexivity|].
        specialize (Hfind name).
        destruct (FindLink (setMTU links i mtu) name) as [[a b]|];
          destruct (FindLink links name) as [[c d]|]; simpl in *; congruence.
      * intros [|j] link Hj Hl; simpl in *; [exact Hl|].
        apply Hnth; [congruence | exact Hl].
Qed.

Section SyncMore.
Context {ext : Externals}.

Ltac sync_inv H :=
  unfold syncLink in H;
  match type of H with
  | context [Metadata.Phase_ ?md] => destruct (Metadata.Phase_ md) eqn:Hphase
  end;
  [ unfold running, replaceMismatched, createMissing, syncSettings,
      syncWireguard, syncUp, syncMTU in H
  | unfold tearDown, removeFinalizer in H ];
  exec_inv H.

(** Property X7.  No sync adds a finalizer.  The sync of a Running item
    never removes one; the sync of a TearingDown item never creates or
    modifies a link and never calls the wireguard client, and it removes
    the finalizer at most once. *)
Theorem phase_calls (wgClient : option unit) (links : list KernelLink.t) (link : LinkSpec.t)
    (t : list Call) (out : Returned) :
  exec (syncLink wgClient links link) t out ->
  existsb isAddFinalizer t = false
  /\ match Metadata.Phase_ (LinkSpec.Metadata_ link) with
     | PhaseRunning => existsb isRemoveFinalizer t = false
     | PhaseTearingDown =>
         existsb (fun c => isLinkNew c || isLinkSet c || isWireguardCall c) t = false
         /\ (countCalls isRemoveFinalizer t <= 1)%nat
     end.
Proof.
  intros H. sync_inv H; (split; [reflexivity|]);
    first [reflexivity | split; [reflexivity | cbn; lia]].
Qed.

(** Property X8.  The sync of an item that is not logical never creates
    and never deletes a kernel link, and never lists the links again,
    whatever its phase. *)
Theorem physical_link_kept (wgClient : option unit) (links : list KernelLink.t)
    (link : LinkSpec.t) (t : list Call) (out : Returned) :
  LinkSpecSpec.Logical (LinkSpec.TypedSpec link) = false ->
  exec (syncLink wgClient links link) t out ->
  existsb isLinkNew t = false /\ existsb isLinkDelete t = false
  /\ existsb isLinkList t = false.
Proof.
  intros Hlog H. unfold syncLink in H.
  destruct (Metadata.Phase_ (LinkSpec.Metadata_ link)).
  - unfold running, replaceMismatched, createMissing, syncSettings,
      syncWireguard, syncUp, syncMTU in H.
    rewrite Hlog in H. exec_inv H; repeat split; reflexivity.
  - unfold tearDown, removeFinalizer in H.
    rewrite Hlog in H. exec_inv H; repeat split; reflexivity.
Qed.

(** Property X13.  An error [syncLink] returns is never an aggregate, so
    appending it to the cycle's aggregate adds exactly one error. *)
Theorem syncLink_error_single (wgClient : option unit) (links : list KernelLink.t)
    (link : LinkSpec.t) (t : list Call) (out : Returned) (err : error) :
  exec (syncLink wgClient links link) t out ->
  snd out = Some err ->
  isAggregate err = false.
Proof.
  intros H Hout. sync_inv H; cbn in Hout; try discriminate Hout;
    inversion Hout; reflexivity.
Qed.

(** Property X17.  Unless the item is of wireguard kind and a wireguard
    client is available, the sync makes no call on the wireguard client
    and sends no refresh notification. *)
Theorem wireguard_calls_only_with_client (wgClient : option unit)
    (links : list KernelLink.t) (link : LinkSpec.t) (t : list Call) (out : Returned) :
  String.eqb (LinkSpecSpec.Kind (LinkSpec.TypedSpec link)) LinkKindWireguard = false
  \/ wgClient = None ->
  exec (syncLink wgClient links link) t out ->
  existsb isWireguardCall t = false.
Proof.
  intros Hc H. unfold syncLink in H.
  destruct (Metadata.Phase_ (LinkSpec.Metadata_ link)).
  - unfold running, replaceMismatched, createMissing, syncSettings,
      syncWireguard, syncUp, syncMTU in H.
    destruct Hc as [Hk| ->]; [rewrite Hk in H|]; exec_inv H; reflexivity.
  - unfold tearDown, removeFinalizer in H. exec_inv H; reflexivity.
Qed.

(** Property X10.  In every sync a successful [ConfigureDevice] is
    followed at once by the refresh notification, the notification is
    sent exactly as often as the device was configured successfully, and
    the device is configured at most once.  Once the device state was
    read, the device is not configured when the decoded, sorted state
    equals the sorted desired spec, and it is configured when they differ
    and the patch between them can be encoded. *)
Theorem configure_then_bump (wgClient : option unit) (links : list KernelLink.t)
    (link : LinkSpec.t) (t : list Call) (out : Returned) :
  exec (syncLink wgClient links link) t out ->
  eachFollowedBy configured isLinkRefreshBump t = true
  /\ countCalls isLinkRefreshBump t = countCalls configured t
  /\ (countCalls isConfigure t <= 1)%nat
  /\ (forall dev, deviceRead t = Some (inr dev) ->
        (specEqual (decodedSorted dev) (desiredSorted (LinkSpec.TypedSpec link)) = true
         -> existsb isConfigure t = false)
        /\ (specEqual (decodedSorted dev) (desiredSorted (LinkSpec.TypedSpec link)) = false
            -> forall cfg,
                 Encode (desiredSorted (LinkSpec.TypedSpec link)) (decodedSorted dev) = inr cfg ->
                 existsb isConfigure t = true)).
Proof.
  intros H. sync_inv H.
  all: split; [reflexivity|]; split; [reflexivity|]; split; [cbn; lia|].
  all: intros dev Hdev; cbn in Hdev; try discriminate Hdev;
    inversion Hdev; subst; clear Hdev;
    unfold decodedSorted, desiredSorted;
    split; intros Heq; try reflexivity; try congruence;
    try (intros cfg Hcfg; first [reflexivity | congruence]).
Qed.

(** Property X9.  A sync issues at most one flags-only modification,
    only for a Running item, for the link the snapshot in force resolves
    the name to, and only when the kernel's UP flag is the opposite of the
    desired state; if that modification fails the sync returns an error
    without touching the MTU.  The up/down step issues the modification
    if and only if the two differ.  The request carries no attributes,
    addresses the link by its index, and its change mask is the UP bit
    alone, with the UP bit of the flags set exactly when the link is to
    be up. *)
Theorem up_flag_modification (wgClient : option unit) (links : list KernelLink.t)
    (link : LinkSpec.t) :
  let spec := LinkSpec.TypedSpec link in
  (forall t out, exec (syncLink wgClient links link) t out ->
     (length (flagSets t) <= 1)%nat
     /\ forall req r, In (req, r) (flagSets t) ->
          Metadata.Phase_ (LinkSpec.Metadata_ link) = PhaseRunning
          /\ exists i existing,
               FindLink (current t links) (LinkSpecSpec.Name spec) = Some (i, existing)
               /\ req = flagsMessage existing (LinkSpecSpec.Up spec)
               /\ existingUp existing = negb (LinkSpecSpec.Up spec)
               /\ (forall err, r = Some err -> snd out <> None /\ mtuSets t = []))
  /\ (forall existing t out,
        exec (syncUp link existing) t out ->
        if Bool.eqb (existingUp existing) (LinkSpecSpec.Up spec)
        then t = [] /\ out = None
        else exists r,
               t = [call (LinkSet (flagsMessage existing (LinkSpecSpec.Up spec))) r]
               /\ (r = None <-> out = None))
  /\ (forall existing up,
        LinkMessage.Change (flagsMessage existing up) = IFF_UP
        /\ LinkMessage.Attributes (flagsMessage existing up) = None
        /\ LinkMessage.Index (flagsMessage existing up) = KernelLink.Index existing
        /\ Z.land (LinkMessage.Flags (flagsMessage existing up)) IFF_UP
           = (if up then IFF_UP else 0)).
Proof.
  intros spec. subst spec. split; [|split].
  - intros t out H. sync_inv H.
    all: split; [cbn; lia|].
    all: intros req r Hin; cbn in Hin; try contradiction.
    all: repeat match goal with
                | p : Existing |- _ => destruct p
                | p : (nat * KernelLink.t)%type |- _ => destruct p
                end.
    all: cbn [snd] in *.
    all: destruct Hin as [Hin|[]]; inversion Hin; subst; clear Hin.
    all: split; [reflexivity|].
    all: eexists; eexists; cbn [current listed fst].
    all: split; [eassumption|]; split; [reflexivity|].
    all: split;
      [ unfold existingUp;
        match goal with
        | Hb : Bool.eqb ?a ?b = false |- ?a = negb ?b =>
            destruct a, b; simpl in *; congruence
        end
      | intros err' Herr; first [discriminate Herr | split; [discriminate | reflexivity]] ].
  - intros existing t out H. unfold syncUp in H. fold (existingUp existing) in H.
    destruct (Bool.eqb (existingUp existing) (LinkSpecSpec.Up (LinkSpec.TypedSpec link))).
    + exec_inv H. split; reflexivity.
    + exec_inv H; eexists; (split; [reflexivity|]); split; intros; congruence.
  - intros existing up. destruct up; repeat split; reflexivity.
Qed.

(** Property X15.  After an MTU step that returned no error, the link
    in the snapshot it hands back no longer differs from the desired MTU,
    and a second MTU step on that snapshot makes no call and changes
    nothing. *)
Theorem syncMTU_settles (links : list KernelLink.t) (link : LinkSpec.t)
    (i : nat) (existing : KernelLink.t) (t : list Call) (out : Returned) :
  let spec := LinkSpec.TypedSpec link in
  FindLink links (LinkSpecSpec.Name spec) = Some (i, existing) ->
  exec (syncMTU links link (i, existing)) t out ->
  snd out = None ->
  exists existing',
    FindLink (fst out) (LinkSpecSpec.Name spec) = Some (i, existing')
    /\ mtuDiffers existing' spec = false
    /\ forall t' out', exec (syncMTU (fst out) link (i, existing')) t' out' ->
         t' = [] /\ out' = (fst out, None).
Proof.
  intros spec Hf H Hout. subst spec. unfold syncMTU in H.
  destruct (mtuDiffers existing (LinkSpec.TypedSpec link)) eqn:Hd.
  - exec_inv H; cbn in Hout; [discriminate|]. cbn [fst].
    destruct (FindLink_setMTU links _ i existing
                (LinkSpecSpec.MTU (LinkSpec.TypedSpec link)) Hf) as (e' & He' & Hm & _).
    exists e'. split; [exact He'|].
    assert (Hd' : mtuDiffers e' (LinkSpec.TypedSpec link) = false).
    { unfold mtuDiffers. rewrite Hm, Z.eqb_refl. apply andb_false_r. }
    split; [exact Hd'|].
    intros t' out' H'. unfold syncMTU in H'. rewrite Hd' in H'.
    exec_inv H'. split; reflexivity.
  - exec_inv H. cbn [fst]. exists existing. split; [exact Hf|]. split; [exact Hd|].
    intros t' out' H'. unfold syncMTU in H'. rewrite Hd in H'.
    exec_inv H'. split; reflexivity.
Qed.


(** Property X11.  [addFinalizers] asks for a finalizer on the Running
    items only, in list order.  When it returns no error every such call
    was accepted; when it returns an error, the refused call is its last
    call, made for a Running item after the Running items before it were
    accepted, and the error wraps the refusal. *)
Theorem addFinalizers_running_only (items : list LinkSpec.t)
    (t : list Call) (out : option error) :
  exec (addFinalizers items) t out ->
  match out with
  | None => t = map finalizerAdded (filter isRunning items)
  | Some err =>
      exists before res after e,
        items = before ++ res :: after
        /\ isRunning res = true
        /\ t = map finalizerAdded (filter isRunning before)
               ++ [call (AddFinalizer (LinkSpec.Metadata_ res) ctrlName) (Some e)]
        /\ err = errorf "error adding finalizer: %w" [] (Some e)
  end.
Proof.
  revert t out. induction items as [|res rest IH]; intros t out H.
  - simpl in H. exec_inv H. reflexivity.
  - simpl in H.
    destruct (Metadata.Phase_ (LinkSpec.Metadata_ res)) eqn:Hp.
    + assert (Hr : isRunning res = true) by (unfold isRunning; rewrite Hp; reflexivity).
      cbv [bind ret Monad_Prog trigger] in H; cbn [bindProg exec] in H.
      destruct H as (x & t' & -> & H). destruct x as [e|].
      * cbn in H. destruct H as [-> ->].
        exists [], res, rest, e.
        split; [reflexivity|]. split; [exact Hr|]. split; reflexivity.
      * specialize (IH _ _ H). destruct out as [err|].
        -- destruct IH as (before & res' & after & e & -> & Hr' & -> & ->).
           exists (res :: before), res', after, e.
           split; [reflexivity|]. split; [exact Hr'|]. split; [|reflexivity].
           simpl. rewrite Hr. reflexivity.
        -- subst t'. simpl. rewrite Hr. reflexivity.
    + assert (Hr : isRunning res = false) by (unfold isRunning; rewrite Hp; reflexivity).
      specialize (IH _ _ H). destruct out as [err|].
      * destruct IH as (before & res' & after & e & -> & Hr' & -> & ->).
        exists (res :: before), res', after, e.
        split; [reflexivity|]. split; [exact Hr'|]. split; [|reflexivity].
        simpl. rewrite Hr. reflexivity.
      * simpl. rewrite Hr. exact IH.
Qed.

Lemma addFinalizers_no_reset (items : list LinkSpec.t) (t : list Call) (out : option error) :
  exec (addFinalizers items) t out -> existsb isResetRestartBackoff t = false.
Proof.
  revert t out. induction items as [|res rest IH]; intros t out H.
  - simpl in H. exec_inv H. reflexivity.
  - simpl in H. destruct (Metadata.Phase_ (LinkSpec.Metadata_ res)).
    + cbv [bind ret Monad_Prog trigger] in H; cbn [bindProg exec] in H.
      destruct H as (x & t' & -> & H). destruct x as [e|].
      * cbn in H. destruct H as [-> ->]. reflexivity.
      * simpl. apply (IH _ _ H).
    + apply (IH _ _ H).
Qed.

(** Property X12.  A cycle resets the restart backoff exactly when it
    returns no error, at most once, and then as its last call. *)
Theorem cycle_reset_iff_healthy (wgClient : option unit) (t : list Call)
    (out : option error) :
  exec (cycle wgClient) t out ->
  (out = None <-> existsb isResetRestartBackoff t = true)
  /\ (countCalls isResetRestartBackoff t <= 1)%nat
  /\ (out = None -> exists t', t = t' ++ [call ResetRestartBackoff tt]).
Proof.
  intros H. apply cycle_reconcile in H.
  destruct H as [(e & -> & Hout)|(items & tfin & [(err & -> & Hfin & ->)|(links & Hfin & H)])].
  - split; [split; [contradiction | discriminate]|]. split; [cbn; lia | contradiction].
  - pose proof (addFinalizers_no_reset _ _ _ Hfin) as Hn.
    assert (Hc : countCalls isResetRestartBackoff tfin = 0%nat).
    { unfold countCalls. clear -Hn. induction tfin as [|c tl IH]; [reflexivity|].
      simpl in *. apply orb_false_iff in Hn. destruct Hn as [H1 H2].
      rewrite H1. apply IH. exact H2. }
    split; [split; [discriminate | cbn; rewrite Hn; discriminate]|].
    split; [unfold countCalls in *; cbn; lia | discriminate].
  - pose proof (addFinalizers_no_reset _ _ _ Hfin) as Hn.
    assert (Hzero : forall tl, existsb isResetRestartBackoff tl = false ->
                               countCalls isResetRestartBackoff tl = 0%nat).
    { unfold countCalls. induction tl as [|c tl IH]; [reflexivity|].
      simpl. intros Hx. apply orb_false_iff in Hx. destruct Hx as [H1 H2].
      rewrite H1. apply IH. exact H2. }
    destruct H as [(e & -> & Hout)|(t' & -> & H)].
    + split; [split; [contradiction|]|].
      * cbn. rewrite existsb_app, Hn. cbn. discriminate.
      * split; [|contradiction].
        unfold countCalls. cbn. rewrite filter_app. cbn.
        rewrite length_app. fold (countCalls isResetRestartBackoff tfin).
        rewrite (Hzero _ Hn). cbn. lia.
    + unfold reconcile in H. cbv [bind Monad_Prog] in H.
      apply exec_bind in H. destruct H as ([links' multiErr] & t1 & t2 & H1 & H2 & ->).
      destruct (syncItems_runs wgClient _ _ _ _ _ H1) as (runs & Hruns & -> & _).
      pose proof (syncedInOrder_no_reset wgClient _ _ _ Hruns) as Hs.
      unfold finishCycle in H2.
      destruct multiErr as [|err errs]; exec_inv H2.
      * destruct x.
        split; [split; [intros _|reflexivity]|].
        -- cbn. rewrite existsb_app. cbn. rewrite existsb_app. cbn.
           rewrite !orb_true_r. reflexivity.
        -- split.
           ++ unfold countCalls. cbn. rewrite filter_app. cbn. rewrite filter_app. cbn.
              rewrite !length_app. cbn.
              fold (countCalls isResetRestartBackoff tfin).
              fold (countCalls isResetRestartBackoff (concat (map fst runs))).
              rewrite (Hzero _ Hn), (Hzero _ Hs). lia.
           ++ intros _.
              exists (call StoreList (inr items) :: tfin
                      ++ call LinkList (links, None) :: concat (map fst runs)).
              cbn. rewrite <- !app_assoc. cbn. reflexivity.
      * rewrite app_nil_r.
        split; [split; [discriminate|]|].
        -- cbn. rewrite existsb_app. cbn. rewrite Hn, Hs. discriminate.
        -- split; [|discriminate].
           unfold countCalls. cbn. rewrite filter_app. cbn.
           rewrite length_app. cbn.
           fold (countCalls isResetRestartBackoff tfin).
           fold (countCalls isResetRestartBackoff (concat (map fst runs))).
           rewrite (Hzero _ Hn), (Hzero _ Hs). lia.
Qed.

End SyncMore.

(** * The theorems on concrete inputs *)

#[local] Existing Instance sampleExternals.

Lemma exec_of_run (A W : Type) (h : Handler W) (p : Prog A) (w w' : W)
    (a : A) (t : list Call) :
  run h p w = (a, w', t) -> exec p t a.
Proof.
  intros H. pose proof (run_exec A W h p w) as He. rewrite H in He. exact He.
Qed.

(** Proves [exec p t a] for closed [p], [t] and [a] by running [p] on
    the simulated host from the state [w]. *)
Ltac exec_run w :=
  eapply (exec_of_run _ _ simulate _ w); lazy; reflexivity.

(** As [exec_run], for programs that run the merge of [Encode]. *)
Ltac exec_run_vm w :=
  eapply (exec_of_run _ _ simulate _ w); vm_compute; reflexivity.

(** The spec's example A: desired [A, C] against existing [A', B] gives
    replace A, remove B, add C. *)
Example Encode_example_A :
  option_map (map (fun c => (PeerConfig.PublicKey c, PeerConfig.Remove c,
                             PeerConfig.ReplaceAllowedIPs c,
                             PeerConfig.PersistentKeepaliveInterval c)))
    (match Encode (withPeers [peerA; peerC]) (withPeers [peerA'; peerB]) with
     | inr cfg => Some (Config.Peers cfg)
     | inl _ => None
     end)
  = Some [ (list_byte_of_string "A", false, true, Some 0%Z);
           (list_byte_of_string "B", true, false, None);
           (list_byte_of_string "C", false, true, Some 0%Z) ].
Proof. vm_compute. reflexivity. Qed.



(** The spec's example B. *)
Lemma Encode_port_and_mark_witness :
  exists cfg,
    Encode desiredPortZero existingPort51820 = inr cfg
    /\ Config.ListenPort cfg = Some 0%Z
    /\ Config.FirewallMark cfg = None.
Proof.
  destruct (@Encode_port_and_mark sampleExternals desiredPortZero existingPort51820)
    as [Hfields Hok].
  destruct (Hok eq_refl) as [cfg Hcfg].
  exists cfg. split; [exact Hcfg|]. exact (Hfields cfg Hcfg).
Defined.

(** A device peer with the all-zero preshared key and no endpoint; the
    config view takes the device's private key, the status view its
    public key. *)
Example Decode_zero_preshared_key :
  let dev := Device.mk (list_byte_of_string "priv") (list_byte_of_string "pub") 51820 7
               [Peer.mk (list_byte_of_string "A") zeroKey None 25 []] in
  Decode WireguardSpec.zero dev false
  = WireguardSpec.mk "priv" "" 51820 7 [WireguardPeer.mk "A" "" "" 25 []]
  /\ Decode WireguardSpec.zero dev true
     = WireguardSpec.mk "" "pub" 51820 7 [WireguardPeer.mk "A" "" "" 25 []].
Proof. split; vm_compute; reflexivity. Qed.

Lemma tearDown_physical_frame_witness :
  let removal := RemoveFinalizer (LinkSpec.Metadata_ gonePhysicalItem) ctrlName in
  exec (syncLink (Some tt) [eth0] gonePhysicalItem) [call removal None] ([eth0], None)
  /\ exists r,
       [call removal None] = [call removal r]
       /\ fst ([eth0], @None error) = [eth0]
       /\ (r = None -> snd ([eth0], @None error) = None)
       /\ (forall err, r = Some err ->
             snd ([eth0], @None error)
             = Some (errorf "error removing finalizer: %w" [] (Some err))).
Proof.
  assert (H : exec (syncLink (Some tt) [eth0] gonePhysicalItem)
                [call (RemoveFinalizer (LinkSpec.Metadata_ gonePhysicalItem) ctrlName) None]
                ([eth0], None)) by exec_run (world [eth0]).
  split; [exact H|].
  exact (@tearDown_physical_frame sampleExternals (Some tt) [eth0] gonePhysicalItem
           _ _ eq_refl eq_refl H).
Defined.

Lemma tearDown_finalizer_witness :
  let removal := RemoveFinalizer (LinkSpec.Metadata_ goneLogicalItem) ctrlName in
  let t := [call (LinkDelete 7) None; call LinkList ([], None); call removal None] in
  exec (syncLink (Some tt) [wireguardLink0] goneLogicalItem) t ([], None)
  /\ exists r t',
       t = call (LinkDelete 7) r :: t'
       /\ (forall err, r = Some err ->
             t' = [] /\ fst (@nil KernelLink.t, @None error) = [wireguardLink0]
             /\ snd (@nil KernelLink.t, @None error) <> None)
       /\ (r = None ->
           exists links' e t'',
             t' = call LinkList (links', e) :: t''
             /\ (forall err, e = Some err ->
                   t'' = [] /\ fst (@nil KernelLink.t, @None error) = links'
                   /\ snd (@nil KernelLink.t, @None error) <> None)
             /\ (e = None ->
                 exists r', t'' = [call removal r']
                            /\ fst (@nil KernelLink.t, @None error) = links'
                            /\ (r' = None -> snd (@nil KernelLink.t, @None error) = None))).
Proof.
  assert (H : exec (syncLink (Some tt) [wireguardLink0] goneLogicalItem)
                [call (LinkDelete 7) None; call LinkList ([], None);
                 call (RemoveFinalizer (LinkSpec.Metadata_ goneLogicalItem) ctrlName) None]
                ([], None)) by exec_run (world [wireguardLink0]).
  split; [exact H|].
  exact (@tearDown_finalizer sampleExternals (Some tt) [wireguardLink0] goneLogicalItem
           _ _ eq_refl H).
Defined.

(** Claim C2 as stated fails for a kind other than wireguard: the vlan
    link in the way of a declared bond is deleted and nothing is created. *)
Lemma replace_other_kind_counterexample :
  FindLink [vlanLink0] "link0" = Some (O, vlanLink0)
  /\ mismatched vlanLink0 (LinkInfo.mk "vlan" []) (LinkSpec.TypedSpec bondItem) = true
  /\ run simulate (syncLink (Some tt) [vlanLink0] bondItem) (world [vlanLink0])
     = (([vlanLink0], None), world [], [call (LinkDelete 7) None])
  /\ existsb isLinkNew [call (LinkDelete 7) None] = false.
Proof. repeat split; vm_compute; reflexivity. Qed.

Lemma replace_mismatched_link_witness :
  let t := [call (LinkDelete 7) None;
            call (LinkNew (newLinkMessage (LinkSpec.TypedSpec wireguardItem))) None;
            call LinkList ([createdLink0], None);
            call (WgDevice "link0") (inr emptyDevice)] in
  exec (syncLink (Some tt) [vlanLink0] wireguardItem) t ([createdLink0], None)
  /\ exists r t',
       t = call (LinkDelete 7) r :: t'
       /\ (forall err, r = Some err ->
             t' = []
             /\ ([createdLink0], @None error)
                = ([vlanLink0], Some (errorf "error deleting link %q: %w" ["link0"] (Some err))))
       /\ (r = None ->
           exists r' t'',
             t' = call (LinkNew (newLinkMessage (LinkSpec.TypedSpec wireguardItem))) r' :: t'').
Proof.
  assert (H : exec (syncLink (Some tt) [vlanLink0] wireguardItem)
                [call (LinkDelete 7) None;
                 call (LinkNew (newLinkMessage (LinkSpec.TypedSpec wireguardItem))) None;
                 call LinkList ([createdLink0], None);
                 call (WgDevice "link0") (inr emptyDevice)]
                ([createdLink0], None)) by exec_run (world [vlanLink0]).
  split; [exact H|].
  exact (@replace_mismatched_link sampleExternals (Some tt) [vlanLink0] wireguardItem
           O vlanLink0 (LinkInfo.mk "vlan" []) _ _ eq_refl eq_refl eq_refl eq_refl eq_refl H).
Defined.

(** Claim C3 as stated fails where a mismatched link is replaced: the
    successful delete is followed by the create, not by a listing. *)
Lemma replace_not_relisted_counterexample :
  let t := [call (LinkDelete 7) None;
            call (LinkNew (newLinkMessage (LinkSpec.TypedSpec wireguardItem))) None;
            call LinkList ([createdLink0], None);
            call (WgDevice "link0") (inr emptyDevice)] in
  run simulate (syncLink (Some tt) [vlanLink0] wireguardItem) (world [vlanLink0])
  = (([createdLink0], None), World.mk [createdLink0] emptyDevice [] 9, t)
  /\ eachFollowedBy changedLinks isLinkList t = false.
Proof. split; vm_compute; reflexivity. Qed.

Lemma snapshot_refreshed_witness :
  let t := [call (LinkDelete 7) None; call LinkList ([], None);
            call (RemoveFinalizer (LinkSpec.Metadata_ goneLogicalItem) ctrlName) None] in
  exec (syncLink (Some tt) [wireguardLink0] goneLogicalItem) t ([], None)
  /\ eachFollowedBy createdLink isLinkList t = true
  /\ (Metadata.Phase_ (LinkSpec.Metadata_ goneLogicalItem) = PhaseTearingDown ->
      eachFollowedBy deletedLink isLinkList t = true)
  /\ (Metadata.Phase_ (LinkSpec.Metadata_ goneLogicalItem) = PhaseRunning ->
      String.eqb (LinkSpecSpec.Kind (LinkSpec.TypedSpec goneLogicalItem)) LinkKindWireguard
      = true ->
      eachFollowedBy deletedLink isLinkNew t = true)
  /\ sameButMTU (fst (@nil KernelLink.t, @None error)) (current t [wireguardLink0]).
Proof.
  assert (H : exec (syncLink (Some tt) [wireguardLink0] goneLogicalItem)
                [call (LinkDelete 7) None; call LinkList ([], None);
                 call (RemoveFinalizer (LinkSpec.Metadata_ goneLogicalItem) ctrlName) None]
                ([], None)) by exec_run (world [wireguardLink0]).
  split; [exact H|].
  exact (@snapshot_refreshed sampleExternals (Some tt) [wireguardLink0] goneLogicalItem
           _ _ H).
Defined.

(** Claim C6 as stated fails for a Running item whose sync ends before
    the MTU step: the link reports 1500, the spec wants 1420, the link
    carries no type metadata, and the sync makes no call at all. *)
Lemma mtu_skipped_counterexample :
  FindLink [bareLink0] "link0" = Some (O, bareLink0)
  /\ mtuDiffers bareLink0 (LinkSpec.TypedSpec wireguardItem1420) = true
  /\ run simulate (syncLink (Some tt) [bareLink0] wireguardItem1420) (world [bareLink0])
     = (([bareLink0], None), world [bareLink0], [])
  /\ mtuSets (@nil Call) = [].
Proof. repeat split; vm_compute; reflexivity. Qed.

Lemma mtu_modification_witness :
  let spec := LinkSpec.TypedSpec ethItem9000 in
  let t := [call (LinkSet (mtuMessage eth0 9000)) None] in
  exec (syncLink (Some tt) [eth0] ethItem9000) t (setMTU [eth0] 0 9000, None)
  /\ (forall req r, In (req, r) (mtuSets t) ->
        Metadata.Phase_ (LinkSpec.Metadata_ ethItem9000) = PhaseRunning
        /\ exists i existing,
             FindLink (current t [eth0]) (LinkSpecSpec.Name spec) = Some (i, existing)
             /\ req = mtuMessage existing (LinkSpecSpec.MTU spec)
             /\ mtuDiffers existing spec = true
             /\ (r = None ->
                 (setMTU [eth0] 0 9000, @None error)
                 = (setMTU (current t [eth0]) i (LinkSpecSpec.MTU spec), None)))
  /\ (LinkSpecSpec.MTU spec = 0%Z -> mtuSets t = []).
Proof.
  assert (H : exec (syncLink (Some tt) [eth0] ethItem9000)
                [call (LinkSet (mtuMessage eth0 9000)) None]
                (setMTU [eth0] 0 9000, None)) by exec_run (world [eth0]).
  split; [exact H|].
  destruct (@mtu_modification sampleExternals (Some tt) [eth0] ethItem9000) as [Hsync _].
  exact (Hsync _ _ H).
Defined.

Lemma reconcile_aggregates_witness :
  let removal := RemoveFinalizer (LinkSpec.Metadata_ gonePhysicalItem) ctrlName in
  let failure := clientMissing (LinkSpec.TypedSpec wireguardItem) in
  let t := [call removal None] in
  let out := Some (multiError [failure]) in
  exec (reconcile None [wireguardItem; gonePhysicalItem] [wireguardLink0]) t out
  /\ exists runs,
       syncedInOrder None [wireguardLink0] [wireguardItem; gonePhysicalItem] runs
       /\ length runs = 2%nat
       /\ match errorsOf runs with
          | [] => t = concat (map fst runs) ++ [call ResetRestartBackoff tt] /\ out = None
          | err :: errs =>
              t = concat (map fst runs)
              /\ existsb isResetRestartBackoff t = false
              /\ out = Some (multiError (err :: errs))
          end.
Proof.
  assert (H : exec (reconcile None [wireguardItem; gonePhysicalItem] [wireguardLink0])
                [call (RemoveFinalizer (LinkSpec.Metadata_ gonePhysicalItem) ctrlName) None]
                (Some (multiError [clientMissing (LinkSpec.TypedSpec wireguardItem)])))
    by exec_run (world [wireguardLink0]).
  split; [exact H|].
  exact (@reconcile_aggregates sampleExternals None
           [wireguardItem; gonePhysicalItem] [wireguardLink0] _ _ H).
Defined.


(** ** The further properties on concrete inputs *)

Lemma Encode_entries_from_witness :
  let spec := withPeers [peerA; peerC] in
  let existing := withPeers [peerA'; peerB] in
  match Encode spec existing with
  | inl _ => False
  | inr cfg =>
      Forall (fun c =>
                (exists p, In p (WireguardSpec.Peers existing) /\ deletePeer p = inr c)
                \/ (exists p, In p (WireguardSpec.Peers spec) /\ addPeer p = inr c))
        (Config.Peers cfg)
      /\ (length (Config.Peers cfg)
          <= length (WireguardSpec.Peers existing) + length (WireguardSpec.Peers spec))%nat
  end.
Proof.
  cbv zeta.
  destruct (Encode (withPeers [peerA; peerC]) (withPeers [peerA'; peerB])) as [err|cfg] eqn:E.
  - vm_compute in E. discriminate E.
  - exact (@Encode_entries_from sampleExternals _ _ cfg E).
Defined.

Lemma Encode_empty_side_witness :
  let spec := withPeers [peerA; peerC] in
  let existing := withPeers [] in
  match Encode spec existing with
  | inl _ => False
  | inr cfg =>
      (WireguardSpec.Peers existing = [] ->
       Forall2 (fun p c => addPeer p = inr c) (WireguardSpec.Peers spec) (Config.Peers cfg))
      /\ (WireguardSpec.Peers spec = [] ->
          Forall2 (fun p c => deletePeer p = inr c)
            (WireguardSpec.Peers existing) (Config.Peers cfg))
  end.
Proof.
  cbv zeta.
  destruct (Encode (withPeers [peerA; peerC]) (withPeers [])) as [err|cfg] eqn:E.
  - vm_compute in E. discriminate E.
  - exact (@Encode_empty_side sampleExternals _ _ cfg E).
Defined.

Lemma addPeer_decodePeer_witness :
  readsBack devicePeerA
  /\ addPeer (decodePeer devicePeerA) = inr (entryOfPeer devicePeerA).
Proof.
  assert (H : readsBack devicePeerA).
  { split; [vm_compute; reflexivity|].
    split; [intros _; split; [vm_compute; discriminate | vm_compute; reflexivity]|].
    split; [|constructor].
    intros a Ha. injection Ha as Ha. subst a.
    split; [vm_compute; discriminate | vm_compute; reflexivity]. }
  split; [exact H|].
  exact (@addPeer_decodePeer sampleExternals devicePeerA H).
Defined.

Lemma phase_calls_witness :
  let t := [call (LinkDelete 7) None;
            call LinkList ([] : list KernelLink.t, None);
            call (RemoveFinalizer (LinkSpec.Metadata_ goneLogicalItem) ctrlName) None] in
  let out : Returned := ([], None) in
  exec (syncLink (Some tt) [wireguardLink0] goneLogicalItem) t out
  /\ existsb isAddFinalizer t = false
  /\ match Metadata.Phase_ (LinkSpec.Metadata_ goneLogicalItem) with
     | PhaseRunning => existsb isRemoveFinalizer t = false
     | PhaseTearingDown =>
         existsb (fun c => isLinkNew c || isLinkSet c || isWireguardCall c) t = false
         /\ (countCalls isRemoveFinalizer t <= 1)%nat
     end.
Proof.
  assert (H : exec (syncLink (Some tt) [wireguardLink0] goneLogicalItem)
                [call (LinkDelete 7) None;
                 call LinkList ([] : list KernelLink.t, None);
                 call (RemoveFinalizer (LinkSpec.Metadata_ goneLogicalItem) ctrlName) None]
                ([], None)) by exec_run (world [wireguardLink0]).
  split; [exact H|].
  exact (@phase_calls sampleExternals (Some tt) [wireguardLink0] goneLogicalItem _ _ H).
Defined.

Lemma physical_link_kept_witness :
  let t := [call (LinkSet (mtuMessage eth0 9000)) None] in
  LinkSpecSpec.Logical (LinkSpec.TypedSpec ethItem9000) = false
  /\ exec (syncLink (Some tt) [eth0] ethItem9000) t (setMTU [eth0] 0 9000, None)
  /\ existsb isLinkNew t = false /\ existsb isLinkDelete t = false
  /\ existsb isLinkList t = false.
Proof.
  assert (H : exec (syncLink (Some tt) [eth0] ethItem9000)
                [call (LinkSet (mtuMessage eth0 9000)) None]
                (setMTU [eth0] 0 9000, None)) by exec_run (world [eth0]).
  split; [reflexivity|]. split; [exact H|].
  exact (@physical_link_kept sampleExternals (Some tt) [eth0] ethItem9000 _ _
           eq_refl H).
Defined.

Lemma syncLink_error_single_witness :
  let failure := clientMissing (LinkSpec.TypedSpec wireguardItem) in
  exec (syncLink None [wireguardLink0] wireguardItem) [] ([wireguardLink0], Some failure)
  /\ isAggregate failure = false.
Proof.
  assert (H : exec (syncLink None [wireguardLink0] wireguardItem) []
                ([wireguardLink0], Some (clientMissing (LinkSpec.TypedSpec wireguardItem))))
    by exec_run (world [wireguardLink0]).
  split; [exact H|].
  exact (@syncLink_error_single sampleExternals None [wireguardLink0] wireguardItem
           _ _ _ H eq_refl).
Defined.

Lemma wireguard_calls_only_with_client_witness :
  let t := [call (LinkSet (mtuMessage eth0 9000)) None] in
  (String.eqb (LinkSpecSpec.Kind (LinkSpec.TypedSpec ethItem9000)) LinkKindWireguard = false
   \/ Some tt = None)
  /\ exec (syncLink (Some tt) [eth0] ethItem9000) t (setMTU [eth0] 0 9000, None)
  /\ existsb isWireguardCall t = false.
Proof.
  assert (H : exec (syncLink (Some tt) [eth0] ethItem9000)
                [call (LinkSet (mtuMessage eth0 9000)) None]
                (setMTU [eth0] 0 9000, None)) by exec_run (world [eth0]).
  split; [left; reflexivity|]. split; [exact H|].
  exact (@wireguard_calls_only_with_client sampleExternals (Some tt) [eth0] ethItem9000
           _ _ (or_introl eq_refl) H).
Defined.

Lemma configure_then_bump_witness :
  let spec := LinkSpec.TypedSpec wireguardItemPeerA in
  let t := [call (WgDevice "link0") (inr emptyDevice);
            call (WgConfigureDevice "link0" patchAddA) None;
            call (LinkRefreshBump "wireguard") None] in
  exec (syncLink (Some tt) [wireguardLink0] wireguardItemPeerA) t ([wireguardLink0], None)
  /\ eachFollowedBy configured isLinkRefreshBump t = true
  /\ countCalls isLinkRefreshBump t = countCalls configured t
  /\ (countCalls isConfigure t <= 1)%nat
  /\ (forall dev, deviceRead t = Some (inr dev) ->
        (specEqual (decodedSorted dev) (desiredSorted spec) = true
         -> existsb isConfigure t = false)
        /\ (specEqual (decodedSorted dev) (desiredSorted spec) = false
            -> forall cfg,
                 Encode (desiredSorted spec) (decodedSorted dev) = inr cfg ->
                 existsb isConfigure t = true)).
Proof.
  assert (H : exec (syncLink (Some tt) [wireguardLink0] wireguardItemPeerA)
                [call (WgDevice "link0") (inr emptyDevice);
                 call (WgConfigureDevice "link0" patchAddA) None;
                 call (LinkRefreshBump "wireguard") None]
                ([wireguardLink0], None)) by exec_run_vm (world [wireguardLink0]).
  split; [exact H|].
  exact (@configure_then_bump sampleExternals (Some tt) [wireguardLink0]
           wireguardItemPeerA _ _ H).
Defined.

Lemma up_flag_modification_witness :
  let t := [call (LinkSet (flagsMessage eth0 true)) None] in
  exec (syncLink (Some tt) [eth0] ethItemUp) t ([eth0], None)
  /\ (length (flagSets t) <= 1)%nat
  /\ forall req r, In (req, r) (flagSets t) ->
       Metadata.Phase_ (LinkSpec.Metadata_ ethItemUp) = PhaseRunning
       /\ exists i existing,
            FindLink (current t [eth0]) (LinkSpecSpec.Name (LinkSpec.TypedSpec ethItemUp))
            = Some (i, existing)
            /\ req = flagsMessage existing (LinkSpecSpec.Up (LinkSpec.TypedSpec ethItemUp))
            /\ existingUp existing = negb (LinkSpecSpec.Up (LinkSpec.TypedSpec ethItemUp))
            /\ (forall err, r = Some err ->
                  snd ([eth0], @None error) <> None /\ mtuSets t = []).
Proof.
  assert (H : exec (syncLink (Some tt) [eth0] ethItemUp)
                [call (LinkSet (flagsMessage eth0 true)) None]
                ([eth0], None)) by exec_run (world [eth0]).
  split; [exact H|].
  destruct (@up_flag_modification sampleExternals (Some tt) [eth0] ethItemUp) as [Hsync _].
  exact (Hsync _ _ H).
Defined.

Lemma syncMTU_settles_witness :
  let spec := LinkSpec.TypedSpec ethItem9000 in
  let t := [call (LinkSet (mtuMessage eth0 9000)) None] in
  let out : Returned := (setMTU [eth0] 0 9000, None) in
  FindLink [eth0] (LinkSpecSpec.Name spec) = Some (0%nat, eth0)
  /\ exec (syncMTU [eth0] ethItem9000 (0%nat, eth0)) t out
  /\ exists existing',
       FindLink (fst out) (LinkSpecSpec.Name spec) = Some (0%nat, existing')
       /\ mtuDiffers existing' spec = false
       /\ forall t' out', exec (syncMTU (fst out) ethItem9000 (0%nat, existing')) t' out' ->
            t' = [] /\ out' = (fst out, None).
Proof.
  assert (H : exec (syncMTU [eth0] ethItem9000 (0%nat, eth0))
                [call (LinkSet (mtuMessage eth0 9000)) None]
                (setMTU [eth0] 0 9000, None)) by exec_run (world [eth0]).
  split; [reflexivity|]. split; [exact H|].
  exact (@syncMTU_settles [eth0] ethItem9000 0%nat eth0 _ _ eq_refl H eq_refl).
Defined.


Lemma addFinalizers_running_only_witness :
  let items := [gonePhysicalItem; wireguardItem] in
  let t := [finalizerAdded wireguardItem] in
  exec (addFinalizers items) t None
  /\ t = map finalizerAdded (filter isRunning items).
Proof.
  assert (H : exec (addFinalizers [gonePhysicalItem; wireguardItem])
                [finalizerAdded wireguardItem] None) by exec_run (world []).
  split; [exact H|].
  exact (@addFinalizers_running_only [gonePhysicalItem; wireguardItem] _ _ H).
Defined.

Lemma cycle_reset_iff_healthy_witness :
  let items := [gonePhysicalItem; wireguardItem] in
  let t := [call StoreList (inr items : error + list LinkSpec.t);
            finalizerAdded wireguardItem;
            call LinkList ([wireguardLink0], @None error);
            call (RemoveFinalizer (LinkSpec.Metadata_ gonePhysicalItem) ctrlName) None;
            call (WgDevice "link0") (inr emptyDevice);
            call ResetRestartBackoff tt] in
  let out : option error := None in
  exec (cycle (Some tt)) t out
  /\ (out = None <-> existsb isResetRestartBackoff t = true)
  /\ (countCalls isResetRestartBackoff t <= 1)%nat
  /\ (out = None -> exists t', t = (t' ++ [call ResetRestartBackoff tt])%list).
Proof.
  assert (H : exec (cycle (Some tt))
                [call StoreList (inr [gonePhysicalItem; wireguardItem]
                                 : error + list LinkSpec.t);
                 finalizerAdded wireguardItem;
                 call LinkList ([wireguardLink0], @None error);
                 call (RemoveFinalizer (LinkSpec.Metadata_ gonePhysicalItem) ctrlName) None;
                 call (WgDevice "link0") (inr emptyDevice);
                 call ResetRestartBackoff tt]
                None)
    by exec_run (declaredWorld [wireguardLink0] [gonePhysicalItem; wireguardItem]).
  split; [exact H|].
  exact (@cycle_reset_iff_healthy sampleExternals (Some tt) _ _ H).
Defined.
